(** * Verification of the quiz-tab maintenance scripts

    The repository holds two Python scripts, [fix_quiz_width_final.py] and
    [reduce_quiz_sizes.py].  Each one reads the text file
    [components/project-tabs/quiz-tab.tsx], runs a fixed sequence of
    [content.replace(old, new)] calls on the buffer and writes the buffer
    back.  This file embeds Python's [str.replace], the two scripts and the
    part of the file system they touch, and proves the properties stated for
    them. *)

From Stdlib Require Import NArith Ascii String.
From stdpp Require Import base list strings gmap.

(** ** Text buffers *)

(** A Python [str] is a sequence of Unicode code points. *)
Abbreviation str := (list N).

(** A source literal that holds only plain ASCII characters. *)
Definition lit (s : string) : str :=
  (fun a => N_of_ascii a) <$> list_ascii_of_string s.

(** The double quote character and the escape [\n] of the Python literals. *)
Definition dq : str := [34%N].
Definition nl : str := [10%N].

(** [q s] is the literal [s] between double quotes, as in [className="..."]. *)
Definition q (s : string) : str := dq ++ lit s ++ dq.

(** ** [str.startswith], [in] and [str.replace] *)

(** [startswith s p] is Python's [s.startswith(p)]. *)
Fixpoint startswith (s p : str) : bool :=
  match p, s with
  | [], _ => true
  | _ :: _, [] => false
  | a :: p', c :: s' => if decide (a = c) then startswith s' p' else false
  end.

(** [contains s w] is Python's [w in s]. *)
Fixpoint contains (s w : str) : bool :=
  startswith s w ||
  match s with
  | [] => false
  | _ :: s' => contains s' w
  end.

(** The scan of [str.replace] for a non-empty [old]: [skip] counts the
    characters of a matched occurrence that are still to be passed over, so
    that occurrences are taken leftmost first and never overlap. *)
Fixpoint replace_scan (old new : str) (skip : nat) (s : str) : str :=
  match s with
  | [] => []
  | c :: rest =>
      match skip with
      | S k => replace_scan old new k rest
      | O =>
          if startswith s old
          then new ++ replace_scan old new (length old - 1) rest
          else c :: replace_scan old new 0 rest
      end
  end.

(** [replace s old new] is Python's [s.replace(old, new)].  With an empty
    [old], Python puts [new] before every character and at the end. *)
Definition replace (s old new : str) : str :=
  match old with
  | [] => new ++ flat_map (fun c => c :: new) s
  | _ :: _ => replace_scan old new 0 s
  end.

(** An ordered list of (old, new) pairs applied one after the other, each
    on the result of the one before. *)
Definition apply_pairs (pairs : list (str * str)) (s : str) : str :=
  fold_left (fun acc p => replace acc p.1 p.2) pairs s.

(** [occurs w s]: the word [w] is a contiguous part of [s]. *)
Definition occurs (w s : str) : Prop := ∃ pre post, s = pre ++ w ++ post.

(** Two words are comparable when one of them starts the other. *)
Definition comparable (a b : str) : Prop := a `prefix_of` b ∨ b `prefix_of` a.

Definition comparableb (a b : str) : bool := startswith b a || startswith a b.

(** [apart w n]: no cut of [w] at an offset in [from .. length w - 1] is
    comparable with [n]. *)
Definition apartb (from : nat) (w n : str) : bool :=
  forallb (fun d => negb (comparableb (drop d w) n)) (seq from (length w - from)).

(** ** Files, errors and the effects of a script *)

(** A file on disk: its bytes and whether the process may read or write it. *)
Record file := File {
  data : list Byte.byte;
  readable : bool;
  writable : bool
}.

(** The exceptions that [open], [f.read] and [f.write] can raise here. *)
Inductive error :=
  | FileNotFoundError
  | PermissionError
  | UnicodeDecodeError
  | UnicodeEncodeError.

Inductive result (A : Type) :=
  | Ok (a : A)
  | Raise (e : error).
Arguments Ok {A} a.
Arguments Raise {A} e.

Inductive mode := ModeR | ModeW.

(** What a run can observe and change: the files by path, the lines printed
    so far, the log of every [open] call made, newest last, and what the
    process was started with: its command line and its environment
    variables. *)
Record world := World {
  fs : gmap string file;
  stdout : list str;
  opened : list (string * mode);
  argv : list string;
  environ : gmap string string
}.

(** A script step: it may raise, and it threads the world. *)
Definition M (A : Type) : Type := world -> result A * world.

Definition ret {A} (a : A) : M A := fun w => (Ok a, w).

Definition bind {A B} (m : M A) (k : A -> M B) : M B :=
  fun w =>
    match m w with
    | (Ok a, w') => k a w'
    | (Raise e, w') => (Raise e, w')
    end.

Notation "'do' x <- m ;; k" := (bind m (fun x => k))
  (at level 10, x name, m at level 99, k at level 200, only parsing).

Definition log_open (p : string) (md : mode) (w : world) : world :=
  World (fs w) (stdout w) (opened w ++ [(p, md)]) (argv w) (environ w).

Definition set_file (p : string) (f : file) (w : world) : world :=
  World (<[p := f]> (fs w)) (stdout w) (opened w) (argv w) (environ w).

Section Scripts.

(** The text layer of [open(..., encoding='utf-8')]: bytes to text on
    [f.read()], text to bytes on [f.write()].  Either direction can fail. *)
Variable decode_text : list Byte.byte -> option str.
Variable encode_text : str -> option (list Byte.byte).

(** [with open(p, 'r', encoding='utf-8') as f: content = f.read()] *)
Definition read_text (p : string) : M str :=
  fun w =>
    let w1 := log_open p ModeR w in
    match fs w !! p with
    | None => (Raise FileNotFoundError, w1)
    | Some f =>
        if readable f then
          match decode_text (data f) with
          | Some s => (Ok s, w1)
          | None => (Raise UnicodeDecodeError, w1)
          end
        else (Raise PermissionError, w1)
    end.

(** [with open(p, 'w', encoding='utf-8') as f: f.write(content)].  Opening
    for writing empties the file at once (and makes it when it is missing);
    the text is encoded after that, so a failing encoding leaves the file
    empty. *)
Definition write_text (p : string) (content : str) : M unit :=
  fun w =>
    let w1 := log_open p ModeW w in
    let perms := default (File [] true true) (fs w !! p) in
    if writable perms then
      match encode_text content with
      | Some b => (Ok tt, set_file p (File b (readable perms) (writable perms)) w1)
      | None =>
          (Raise UnicodeEncodeError,
           set_file p (File [] (readable perms) (writable perms)) w1)
      end
    else (Raise PermissionError, w1).

(** [print(s)] *)
Definition print (s : str) : M unit :=
  fun w =>
    (Ok tt, World (fs w) (stdout w ++ [s]) (opened w) (argv w) (environ w)).

(** The one path both scripts name. *)
Definition target : string := "components/project-tabs/quiz-tab.tsx".

(** ** fix_quiz_width_final.py *)

Definition old_progress_calc : str :=
  lit "width: `${Math.min(((currentQuestionIndex + 1) / totalQuestions) * 100, 100)}%`".
Definition new_progress_calc : str :=
  lit "width: `${Math.min(((currentQuestionIndex + 1) / totalQuestions) * 100, 100)}%`".

(** The buffer between the read and the write, lines 8 to 68. *)
Definition fix_quiz_width_final_buffer (content : str) : str :=
  let content := replace content
    (lit "  return (" ++ nl ++ lit "    <div className=" ++ q "space-y-6 w-full max-w-full overflow-x-hidden box-border" ++ lit ">")
    (lit "  return (" ++ nl ++ lit "    <div className=" ++ q "space-y-6 w-full max-w-full overflow-x-hidden box-border" ++ lit " style={{ width: " ++ q "100%" ++ lit ", maxWidth: " ++ q "100%" ++ lit " }}>") in
  let content := replace content
    (lit "        <div className=" ++ q "w-full bg-gray-200 rounded-full h-2 sm:h-3 overflow-hidden" ++ lit ">")
    (lit "        <div className=" ++ q "w-full bg-gray-200 rounded-full h-2 sm:h-3 overflow-hidden" ++ lit " style={{ width: " ++ q "100%" ++ lit ", maxWidth: " ++ q "100%" ++ lit " }}>") in
  let content := replace content
    (lit "            className=" ++ q "bg-emerald-600 h-2 sm:h-3 rounded-full transition-all duration-300 max-w-full")
    (lit "            className=" ++ q "bg-emerald-600 h-2 sm:h-3 rounded-full transition-all duration-300" ++ lit " style={{ maxWidth: " ++ q "100%" ++ lit " }}") in
  let content := replace content
    (lit "      <div className=" ++ q "glass-card rounded-2xl p-4 sm:p-6 w-full max-w-full overflow-hidden" ++ lit ">")
    (lit "      <div className=" ++ q "glass-card rounded-2xl p-4 sm:p-6 w-full max-w-full overflow-hidden box-border" ++ lit " style={{ width: " ++ q "100%" ++ lit ", maxWidth: " ++ q "100%" ++ lit ", boxSizing: " ++ q "border-box" ++ lit " }}>") in
  let content := replace content
    (lit "      <div className=" ++ q "glass-card rounded-2xl p-4 sm:p-6 md:p-8 w-full max-w-full overflow-hidden" ++ lit ">")
    (lit "      <div className=" ++ q "glass-card rounded-2xl p-4 sm:p-6 md:p-8 w-full max-w-full overflow-hidden box-border" ++ lit " style={{ width: " ++ q "100%" ++ lit ", maxWidth: " ++ q "100%" ++ lit ", boxSizing: " ++ q "border-box" ++ lit " }}>") in
  let content := replace content
    (lit "      <div className=" ++ q "space-y-4 w-full max-w-full overflow-x-hidden" ++ lit ">")
    (lit "      <div className=" ++ q "space-y-4 w-full max-w-full overflow-x-hidden box-border" ++ lit " style={{ width: " ++ q "100%" ++ lit ", maxWidth: " ++ q "100%" ++ lit " }}>") in
  let content := replace content
    (lit "        <div className=" ++ q "flex items-center gap-2 w-full min-w-0" ++ lit ">")
    (lit "        <div className=" ++ q "flex items-center gap-2 w-full min-w-0 box-border" ++ lit " style={{ width: " ++ q "100%" ++ lit ", maxWidth: " ++ q "100%" ++ lit " }}>") in
  let content := replace content
    (lit "            className=" ++ q "flex-1 min-w-0 overflow-x-auto px-2 scrollbar-hide")
    (lit "            className=" ++ q "flex-1 min-w-0 overflow-x-auto px-2 scrollbar-hide box-border" ++ lit " style={{ minWidth: 0, maxWidth: " ++ q "100%" ++ lit " }}>") in
  let content := replace content
    (lit "        <div className=" ++ q "flex items-center justify-between gap-4 w-full min-w-0" ++ lit ">")
    (lit "        <div className=" ++ q "flex items-center justify-between gap-4 w-full min-w-0 box-border" ++ lit " style={{ width: " ++ q "100%" ++ lit ", maxWidth: " ++ q "100%" ++ lit " }}>") in
  content.

Definition fix_quiz_width_final : M unit :=
  do content <- read_text target ;;
  do _ <- write_text target (fix_quiz_width_final_buffer content) ;;
  print (lit "File updated successfully!").

(** ** reduce_quiz_sizes.py *)

(** The buffer between the first read and the first write, lines 6 to 17. *)
Definition reduce_quiz_sizes_buffer1 (content : str) : str :=
  let content := replace content (lit "text-sm sm:text-base font-medium") (lit "text-xs font-medium") in
  let content := replace content (lit "text-xs sm:text-sm") (lit "text-xs") in
  let content := replace content (lit "w-8 h-8 sm:w-10 sm:h-10") (lit "w-6 h-6") in
  let content := replace content (lit "text-xs sm:text-sm") (lit "text-xs") in
  let content := replace content (lit "h-4 w-4") (lit "h-3 w-3") in
  let content := replace content (lit "h-2 sm:h-3") (lit "h-1.5") in
  content.

(** The buffer between the second read and the second write, lines 26, 27. *)
Definition reduce_quiz_sizes_buffer2 (content : str) : str :=
  let content := replace content (lit "p-4 sm:p-6") (lit "p-2 sm:p-3") in
  let content := replace content (lit "p-4 sm:p-6 md:p-8") (lit "p-2 sm:p-3") in
  content.

(** Lines 22 to 32: the second read, the padding replacements, the second
    write and the message. *)
Definition reduce_quiz_sizes_padding : M unit :=
  do content <- read_text target ;;
  do _ <- write_text target (reduce_quiz_sizes_buffer2 content) ;;
  print (lit "Reduced all sizes!").

Definition reduce_quiz_sizes : M unit :=
  do content <- read_text target ;;
  do _ <- write_text target (reduce_quiz_sizes_buffer1 content) ;;
  reduce_quiz_sizes_padding.

End Scripts.

(** ** The replacement pairs of each script, in the order of the calls *)

Definition fix_quiz_width_final_pairs : list (str * str) :=
  [ (lit "  return (" ++ nl ++ lit "    <div className=" ++ q "space-y-6 w-full max-w-full overflow-x-hidden box-border" ++ lit ">",
     lit "  return (" ++ nl ++ lit "    <div className=" ++ q "space-y-6 w-full max-w-full overflow-x-hidden box-border" ++ lit " style={{ width: " ++ q "100%" ++ lit ", maxWidth: " ++ q "100%" ++ lit " }}>");
    (lit "        <div className=" ++ q "w-full bg-gray-200 rounded-full h-2 sm:h-3 overflow-hidden" ++ lit ">",
     lit "        <div className=" ++ q "w-full bg-gray-200 rounded-full h-2 sm:h-3 overflow-hidden" ++ lit " style={{ width: " ++ q "100%" ++ lit ", maxWidth: " ++ q "100%" ++ lit " }}>");
    (lit "            className=" ++ q "bg-emerald-600 h-2 sm:h-3 rounded-full transition-all duration-300 max-w-full",
     lit "            className=" ++ q "bg-emerald-600 h-2 sm:h-3 rounded-full transition-all duration-300" ++ lit " style={{ maxWidth: " ++ q "100%" ++ lit " }}");
    (lit "      <div className=" ++ q "glass-card rounded-2xl p-4 sm:p-6 w-full max-w-full overflow-hidden" ++ lit ">",
     lit "      <div className=" ++ q "glass-card rounded-2xl p-4 sm:p-6 w-full max-w-full overflow-hidden box-border" ++ lit " style={{ width: " ++ q "100%" ++ lit ", maxWidth: " ++ q "100%" ++ lit ", boxSizing: " ++ q "border-box" ++ lit " }}>");
    (lit "      <div className=" ++ q "glass-card rounded-2xl p-4 sm:p-6 md:p-8 w-full max-w-full overflow-hidden" ++ lit ">",
     lit "      <div className=" ++ q "glass-card rounded-2xl p-4 sm:p-6 md:p-8 w-full max-w-full overflow-hidden box-border" ++ lit " style={{ width: " ++ q "100%" ++ lit ", maxWidth: " ++ q "100%" ++ lit ", boxSizing: " ++ q "border-box" ++ lit " }}>");
    (lit "      <div className=" ++ q "space-y-4 w-full max-w-full overflow-x-hidden" ++ lit ">",
     lit "      <div className=" ++ q "space-y-4 w-full max-w-full overflow-x-hidden box-border" ++ lit " style={{ width: " ++ q "100%" ++ lit ", maxWidth: " ++ q "100%" ++ lit " }}>");
    (lit "        <div className=" ++ q "flex items-center gap-2 w-full min-w-0" ++ lit ">",
     lit "        <div className=" ++ q "flex items-center gap-2 w-full min-w-0 box-border" ++ lit " style={{ width: " ++ q "100%" ++ lit ", maxWidth: " ++ q "100%" ++ lit " }}>");
    (lit "            className=" ++ q "flex-1 min-w-0 overflow-x-auto px-2 scrollbar-hide",
     lit "            className=" ++ q "flex-1 min-w-0 overflow-x-auto px-2 scrollbar-hide box-border" ++ lit " style={{ minWidth: 0, maxWidth: " ++ q "100%" ++ lit " }}>");
    (lit "        <div className=" ++ q "flex items-center justify-between gap-4 w-full min-w-0" ++ lit ">",
     lit "        <div className=" ++ q "flex items-center justify-between gap-4 w-full min-w-0 box-border" ++ lit " style={{ width: " ++ q "100%" ++ lit ", maxWidth: " ++ q "100%" ++ lit " }}>") ].

(** The calls before the first write of reduce_quiz_sizes.py. *)
Definition reduce_quiz_sizes_pairs1 : list (str * str) :=
  [ (lit "text-sm sm:text-base font-medium", lit "text-xs font-medium");
    (lit "text-xs sm:text-sm", lit "text-xs");
    (lit "w-8 h-8 sm:w-10 sm:h-10", lit "w-6 h-6");
    (lit "text-xs sm:text-sm", lit "text-xs");
    (lit "h-4 w-4", lit "h-3 w-3");
    (lit "h-2 sm:h-3", lit "h-1.5") ].

(** The calls after the second read. *)
Definition reduce_quiz_sizes_pairs2 : list (str * str) :=
  [ (lit "p-4 sm:p-6", lit "p-2 sm:p-3");
    (lit "p-4 sm:p-6 md:p-8", lit "p-2 sm:p-3") ].

Definition reduce_quiz_sizes_pairs : list (str * str) :=
  reduce_quiz_sizes_pairs1 ++ reduce_quiz_sizes_pairs2.

(** ** A one-pass script to compare reduce_quiz_sizes.py with *)

(** Read once, apply [pairs] in order, write once, print the message. *)
Definition single_pass (decode_text : list Byte.byte -> option str)
    (encode_text : str -> option (list Byte.byte))
    (pairs : list (str * str)) : M unit :=
  do content <- read_text decode_text target ;;
  do _ <- write_text encode_text target (apply_pairs pairs content) ;;
  print (lit "Reduced all sizes!").

(** ** A concrete text layer for examples: the ASCII part of UTF-8 *)

Definition ascii_decode (b : list Byte.byte) : option str :=
  if forallb (fun x => N.ltb (Byte.to_N x) 128) b
  then Some (Byte.to_N <$> b) else None.

Definition ascii_encode (s : str) : option (list Byte.byte) :=
  if forallb (fun c => N.ltb c 128) s
  then mapM Byte.of_N s else None.

(** A world with one readable, writable file at [target] holding [s]. *)
Definition world_with (s : str) : world :=
  World {[ target := File (default [] (ascii_encode s)) true true ]} [] []
        [] ∅.

(** The text at [target], when the file is there and decodes. *)
Definition target_text (w : world) : option str :=
  f ← fs w !! target; ascii_decode (data f).

(** ** Observations on a run *)

(** The bytes of the file at [target], when it is there. *)
Definition target_data (w : world) : option (list Byte.byte) :=
  data <$> fs w !! target.

(** The effects of a step stay at [target]: every other path keeps its
    file, and every [open] the step makes names [target]. *)
Definition confined {A} (m : M A) : Prop :=
  ∀ w, delete target (fs (m w).2) = delete target (fs w) ∧
       ∃ evs, opened (m w).2 = opened w ++ evs ∧
              Forall (fun ev => ev.1 = target) evs.

(** The bytes that a run of reduce_quiz_sizes.py that ends well writes
    last, from the text [S] that its first read returns. *)
Definition reduce_written (decode_text : list Byte.byte -> option str)
    (encode_text : str -> option (list Byte.byte)) (S : str) :
    option (list Byte.byte) :=
  b ← encode_text (reduce_quiz_sizes_buffer1 S);
  S2 ← decode_text b;
  encode_text (reduce_quiz_sizes_buffer2 S2).

(** The pairs of a pass over the first four replacements and the last two,
    six in all: the counts that the description of reduce_quiz_sizes.py
    gives, where the script has six and two, eight in all. *)
Definition claimed_six_pairs : list (str * str) :=
  take 4 reduce_quiz_sizes_pairs ++ drop 6 reduce_quiz_sizes_pairs.

(** ** Checks on a list of pairs *)

Definition nonempty (s : str) : bool :=
  match s with
  | [] => false
  | _ :: _ => true
  end.

(** [w] shares no overlap with the new string of [p], and [p] has a
    non-empty old string: a replacement by [p] cannot build a [w]. *)
Definition clear_of (w : str) (p : str * str) : bool :=
  nonempty p.1 && apartb 1 w p.2 && apartb 0 p.2 w.

(** No pair of the list can bring back the old string of a pair at or
    before it: each old string is gone after its own replacement and stays
    gone through the replacements that follow. *)
Fixpoint no_regrowth (pairs : list (str * str)) : bool :=
  match pairs with
  | [] => true
  | p :: ps =>
      clear_of p.1 p && forallb (clear_of p.1) ps && no_regrowth ps
  end.

(** The calls of fix_quiz_width_final.py whose old strings hold neither
    [h-2 sm:h-3] nor [p-4 sm:p-6]: the first and the last four. *)
Definition fix_pairs_without_sizes : list (str * str) :=
  take 1 fix_quiz_width_final_pairs ++ drop 5 fix_quiz_width_final_pairs.

(** A step prints [msg] once when it ends well and nothing when it
    raises. *)
Definition announces (msg : str) (m : M unit) : Prop :=
  ∀ w, stdout (m w).2 =
       match (m w).1 with
       | Ok _ => stdout w ++ [msg]
       | Raise _ => stdout w
       end.

(** [with_env args env w] is the world [w] of a process started with the
    command line [args] and the environment variables [env]. *)
Definition with_env (args : list string) (env : gmap string string)
    (w : world) : world :=
  World (fs w) (stdout w) (opened w) args env.

(** A step neither reads nor changes the command line and the environment
    variables: started with others, it ends with the same result, the same
    files, output and opens, and leaves them as it was given them. *)
Definition ignores_environment {A} (m : M A) : Prop :=
  ∀ w args env,
    m (with_env args env w) = ((m w).1, with_env args env (m w).2).

(** The first thing a step does is to open [target] for reading. *)
Definition opens_target_first {A} (m : M A) : Prop :=
  ∀ w, ∃ evs, opened (m w).2 = opened w ++ (target, ModeR) :: evs.

(** A step reads [target] and overwrites it with [F] of the text read: a
    run that ends well found the file readable and writable, decoded it to
    a text [S] and left the bytes [F S] in its place; and on every such
    file the run does end well. *)
Definition overwrites_target (decode_text : list Byte.byte -> option str)
    (F : str -> option (list Byte.byte)) (m : M unit) : Prop :=
  (∀ w, (m w).1 = Ok tt ->
        ∃ f S b, fs w !! target = Some f ∧ readable f = true ∧
                 writable f = true ∧ decode_text (data f) = Some S ∧
                 F S = Some b ∧
                 fs (m w).2 = <[target := File b true true]> (fs w)) ∧
  (∀ w f S b, fs w !! target = Some f -> readable f = true ->
              writable f = true -> decode_text (data f) = Some S ->
              F S = Some b -> (m w).1 = Ok tt).

(** ** Whole-buffer literal substitution, said without [replace] *)

(** [literal_substitution old new s r]: [r] is [s] with every occurrence
    of the literal [old] replaced by [new], the occurrences taken from the
    left and not overlapping.  Either [old] occurs nowhere and the buffer
    stays; or the buffer is some [pre] in which no occurrence of [old]
    begins, then [old], then a rest, and the result is [pre], then [new],
    then the substitution of the rest. *)
Inductive literal_substitution (old new : str) : str -> str -> Prop :=
  | subst_absent (s : str) :
      ¬ occurs old s -> literal_substitution old new s s
  | subst_leftmost (pre rest r : str) :
      ¬ occurs old (pre ++ take (length old - 1) old) ->
      literal_substitution old new rest r ->
      literal_substitution old new (pre ++ old ++ rest) (pre ++ new ++ r).

(** The pairs of a list substituted one after the other, each on the
    result of the one before. *)
Inductive substituted_in_order : list (str * str) -> str -> str -> Prop :=
  | in_order_done (s : str) : substituted_in_order [] s s
  | in_order_step (old new : str) (ps : list (str * str)) (s mid out : str) :
      literal_substitution old new s mid ->
      substituted_in_order ps mid out ->
      substituted_in_order ((old, new) :: ps) s out.

(** * Properties of [str.replace] *)

Lemma startswith_prefix (s p : str) :
  startswith s p = true ↔ p `prefix_of` s.
Proof.
  revert s. induction p as [|a p IH]; intros s; simpl.
  - destruct s; simpl; (split; [intros _; apply prefix_nil | done]).
  - destruct s as [|c s]; simpl.
    + split; [done | intros [k Hk]; discriminate].
    + destruct (decide (a = c)) as [->|Hac].
      * rewrite IH. split; [apply prefix_cons | apply prefix_cons_inv_2].
      * split; [done | intros H; apply prefix_cons_inv_1 in H; done].
Qed.

Lemma startswith_false (s p : str) :
  startswith s p = false ↔ ¬ p `prefix_of` s.
Proof.
  rewrite <- startswith_prefix. by destruct (startswith s p).
Qed.

Lemma comparableb_spec (a b : str) :
  comparableb a b = true ↔ comparable a b.
Proof.
  unfold comparableb, comparable.
  rewrite orb_true_iff, !startswith_prefix. tauto.
Qed.

Lemma apartb_spec (from : nat) (w n : str) :
  apartb from w n = true ->
  ∀ d, from <= d < length w -> ¬ comparable (drop d w) n.
Proof.
  unfold apartb. rewrite forallb_forall. intros H d Hd Hc.
  specialize (H d). rewrite in_seq in H.
  assert (Hin : from <= d < from + (length w - from)) by lia.
  apply H in Hin. apply comparableb_spec in Hc. rewrite Hc in Hin. done.
Qed.

Lemma occurs_nil (w : str) : occurs w [] -> w = [].
Proof.
  intros (pre & post & H). symmetry in H.
  apply app_eq_nil in H as [_ H]. by apply app_eq_nil in H as [H _].
Qed.

Lemma occurs_cons (w : str) (c : N) (x : str) :
  occurs w (c :: x) -> w `prefix_of` (c :: x) ∨ occurs w x.
Proof.
  intros (pre & post & H). destruct pre as [|c' pre]; simpl in H.
  - left. by exists post.
  - right. injection H as _ H. by exists pre, post.
Qed.

Lemma occurs_app (w a x : str) :
  occurs w (a ++ x) ->
  (∃ k, k < length a ∧ w `prefix_of` (drop k a ++ x)) ∨ occurs w x.
Proof.
  induction a as [|c a IH]; simpl; intros H; [by right|].
  apply occurs_cons in H as [H|H].
  - left. exists 0. split; [lia | done].
  - destruct (IH H) as [(k & Hk & Hp)|Ho]; [|by right].
    left. exists (S k). split; [lia | done].
Qed.

Lemma occurs_prefix (w s : str) : w `prefix_of` s -> occurs w s.
Proof. intros [k ->]. by exists [], k. Qed.

Lemma occurs_skip (w pre s : str) : occurs w s -> occurs w (pre ++ s).
Proof.
  intros (a & b & ->). exists (pre ++ a), b. by rewrite <- app_assoc.
Qed.

Lemma contains_occurs (s w : str) : contains s w = true ↔ occurs w s.
Proof.
  induction s as [|c s IH]; cbn [contains].
  - rewrite orb_false_r, startswith_prefix. split.
    + apply occurs_prefix.
    + intros H. apply occurs_nil in H as ->. apply prefix_nil.
  - rewrite orb_true_iff, startswith_prefix, IH. split.
    + intros [H|H]; [by apply occurs_prefix | by apply (occurs_skip w [c])].
    + apply occurs_cons.
Qed.

(** The three equations that say what the scan does. *)

Lemma replace_scan_skip (old new pre rest : str) :
  replace_scan old new (length pre) (pre ++ rest) = replace_scan old new 0 rest.
Proof. induction pre as [|c pre IH]; simpl; [done | apply IH]. Qed.

Lemma replace_empty (old new : str) : old ≠ [] -> replace [] old new = [].
Proof. by destruct old. Qed.

Lemma replace_hit (old new rest : str) :
  old ≠ [] -> replace (old ++ rest) old new = new ++ replace rest old new.
Proof.
  destruct old as [|a old]; [done|intros _].
  unfold replace. change ((a :: old) ++ rest) with (a :: (old ++ rest)).
  cbn [replace_scan].
  assert (H : startswith (a :: old ++ rest) (a :: old) = true).
  { apply startswith_prefix. by exists rest. }
  rewrite H. f_equal.
  replace (length (a :: old) - 1) with (length old) by (simpl; lia).
  apply replace_scan_skip.
Qed.

Lemma replace_miss (old new : str) (c : N) (s : str) :
  old ≠ [] -> startswith (c :: s) old = false ->
  replace (c :: s) old new = c :: replace s old new.
Proof.
  destruct old as [|a old]; [done|intros _ H].
  unfold replace. cbn [replace_scan]. by rewrite H.
Qed.

(** How a non-empty buffer meets the scan: it starts with [old], or its
    first character is kept. *)
Lemma scan_cases (old new s : str) :
  old ≠ [] ->
  s = [] ∨
  (∃ rest, s = old ++ rest ∧ length rest < length s ∧
           replace s old new = new ++ replace rest old new) ∨
  (∃ c s', s = c :: s' ∧ ¬ old `prefix_of` s ∧
           replace s old new = c :: replace s' old new).
Proof.
  intros Hne. destruct s as [|c s]; [by left|right].
  destruct (startswith (c :: s) old) eqn:E.
  - left. apply startswith_prefix in E as [rest E]. exists rest.
    split; [done|]. split.
    + rewrite E, length_app. destruct old; [done | simpl; lia].
    + rewrite E. by apply replace_hit.
  - right. exists c, s. split; [done|]. split.
    + by apply startswith_false.
    + by apply replace_miss.
Qed.

Lemma str_length_ind (P : str -> Prop) :
  (∀ s, (∀ t, length t < length s -> P t) -> P s) -> ∀ s, P s.
Proof.
  intros step s. remember (length s) as n eqn:Hn. revert s Hn.
  induction n as [n IH] using lt_wf_ind. intros s ->.
  apply step. intros t Ht. by apply (IH (length t)).
Qed.

(** A buffer that does not hold [old] comes back as it is. *)
Lemma replace_absent (s old new : str) :
  ¬ occurs old s -> replace s old new = s.
Proof.
  destruct old as [|a old].
  { intros H. exfalso. apply H. by exists [], s. }
  induction s as [|c s IH]; intros Hno; [done|].
  rewrite replace_miss; [|done|].
  - f_equal. apply IH. intros H. apply Hno. by apply (occurs_skip _ [c]).
  - apply startswith_false. intros H. apply Hno. by apply occurs_prefix.
Qed.

(** Replacing a word by itself changes nothing. *)
Lemma replace_same (s old : str) : replace s old old = s.
Proof.
  destruct old as [|a old].
  - unfold replace. simpl. induction s as [|c s IH]; simpl; congruence.
  - induction s as [s IH] using str_length_ind.
    destruct (scan_cases (a :: old) (a :: old) s) as
      [-> | [(rest & Hs & Hlen & Hr) | (c & s' & Hs & _ & Hr)]]; [done|done|..].
    + rewrite Hr, (IH rest Hlen). by rewrite Hs.
    + rewrite Hr, (IH s'); [by rewrite Hs | rewrite Hs; simpl; lia].
Qed.

Section Overlap.

Variables old new : str.
Hypothesis old_not_empty : old ≠ [].

(** A word that no inserted [new] can be part of starts the output only
    when it starts the input. *)
Lemma prefix_replace (w s : str) :
  (∀ d, d < length w -> ¬ comparable (drop d w) new) ->
  w `prefix_of` replace s old new -> w `prefix_of` s.
Proof.
  revert s. induction w as [|a w IH]; intros s Hap Hp; [apply prefix_nil|].
  destruct (scan_cases old new s old_not_empty) as
    [-> | [(rest & Hs & _ & Hr) | (c & s' & Hs & _ & Hr)]].
  - rewrite replace_empty in Hp by done. by apply prefix_nil_not in Hp.
  - exfalso. apply (Hap 0); [simpl; lia|]. rewrite Hr in Hp.
    apply (prefix_weak_total _ _ _ Hp). by exists (replace rest old new).
  - rewrite Hr in Hp. rewrite Hs.
    pose proof (prefix_cons_inv_1 _ _ _ _ Hp) as ->.
    apply prefix_cons, IH; [|by apply prefix_cons_inv_2 in Hp].
    intros d Hd. apply (Hap (S d)). simpl. lia.
Qed.

(** When does the output hold no occurrence of a watched word [W]?  It is
    enough that [W] cannot begin in kept text and run into an inserted
    [new], that [W] starts at no kept position of the input, and that [W]
    cannot begin inside an inserted [new]. *)
Lemma no_occurrence_after_replace (W : str) :
  W ≠ [] ->
  (∀ d, 1 <= d < length W -> ¬ comparable (drop d W) new) ->
  ∀ s,
    (∀ pre rest, s = pre ++ rest ->
       ¬ old `prefix_of` rest -> ¬ W `prefix_of` rest) ->
    (∀ pre rest k, s = pre ++ old ++ rest -> k < length new ->
       ¬ W `prefix_of` (drop k new ++ replace rest old new)) ->
    ¬ occurs W (replace s old new).
Proof.
  intros HW Hap. induction s as [s IH] using str_length_ind.
  intros Hkept Hins Hocc.
  destruct (scan_cases old new s old_not_empty) as
    [-> | [(rest & Hs & Hlen & Hr) | (c & s' & Hs & Hnp & Hr)]].
  - rewrite replace_empty in Hocc by done. by apply occurs_nil in Hocc.
  - rewrite Hr in Hocc. apply occurs_app in Hocc as [(k & Hk & Hp)|Hocc].
    + by apply (Hins [] rest k).
    + apply (IH rest Hlen); [| |done].
      * intros pre r ->. apply (Hkept (old ++ pre) r).
        by rewrite Hs, <- app_assoc.
      * intros pre r k ->. apply (Hins (old ++ pre) r k).
        by rewrite Hs, <- app_assoc.
  - rewrite Hr in Hocc. apply occurs_cons in Hocc as [Hp|Hocc].
    + apply (Hkept [] s); [done|done|]. rewrite Hs.
      destruct W as [|a W]; [done|].
      pose proof (prefix_cons_inv_1 _ _ _ _ Hp) as ->.
      apply prefix_cons, prefix_replace; [|by apply prefix_cons_inv_2 in Hp].
      intros d Hd. apply (Hap (S d)). simpl. lia.
    + apply (IH s'); [rewrite Hs; simpl; lia | | | done].
      * intros pre r ->. apply (Hkept (c :: pre) r). by rewrite Hs.
      * intros pre r k ->. apply (Hins (c :: pre) r k). by rewrite Hs.
Qed.

Lemma incomparable_not_prefix (W a x : str) :
  ¬ comparable a W -> ¬ W `prefix_of` (a ++ x).
Proof.
  intros Hn Hp. apply Hn. unfold comparable.
  destruct (prefix_weak_total W a (a ++ x) Hp) as [H|H]; [by exists x|by right|by left].
Qed.

(** A watched word that shares no overlap with [new] and is absent from
    the input is absent from the output. *)
Lemma replace_keeps_absent (W s : str) :
  W ≠ [] -> apartb 1 W new = true -> apartb 0 new W = true ->
  ¬ occurs W s -> ¬ occurs W (replace s old new).
Proof.
  intros HW H1 H0 Hno. apply no_occurrence_after_replace; [done| | |].
  - by apply apartb_spec.
  - intros pre rest -> _ Hp. apply Hno, occurs_skip. by apply occurs_prefix.
  - intros pre rest k _ Hk. apply incomparable_not_prefix.
    apply (apartb_spec 0 new W H0). lia.
Qed.

(** A watched word that begins with [old] and shares no overlap with
    [new] is absent from every output. *)
Lemma replace_removes (W s : str) :
  old `prefix_of` W -> apartb 1 W new = true -> apartb 0 new W = true ->
  ¬ occurs W (replace s old new).
Proof.
  intros Hpre H1 H0. apply no_occurrence_after_replace.
  - intros ->. by apply prefix_nil_inv in Hpre.
  - by apply apartb_spec.
  - intros pre rest _ Hn Hp. apply Hn. by transitivity W.
  - intros pre rest k _ Hk. apply incomparable_not_prefix.
    apply (apartb_spec 0 new W H0). lia.
Qed.

End Overlap.

(** * Properties of the scripts' effects *)

Section Effects.

Variable decode_text : list Byte.byte -> option str.
Variable encode_text : str -> option (list Byte.byte).

Lemma bind_raise {A B} (m : M A) (k : A -> M B) (w w' : world) (e : error) :
  m w = (Raise e, w') -> bind m k w = (Raise e, w').
Proof. unfold bind. by intros ->. Qed.

Lemma bind_ok {A B} (m : M A) (k : A -> M B) (w w' : world) (a : A) :
  m w = (Ok a, w') -> bind m k w = k a w'.
Proof. unfold bind. by intros ->. Qed.

(** A read changes nothing but the log of opens. *)
Lemma read_text_world (p : string) (w : world) :
  (read_text decode_text p w).2 = log_open p ModeR w.
Proof.
  unfold read_text. destruct (fs w !! p) as [f|]; [|done].
  destruct (readable f); [|done]. by destruct (decode_text (data f)).
Qed.

Lemma read_text_ok (p : string) (w : world) (S : str) :
  (read_text decode_text p w).1 = Ok S ↔
  ∃ f, fs w !! p = Some f ∧ readable f = true ∧ decode_text (data f) = Some S.
Proof.
  unfold read_text. destruct (fs w !! p) as [f|]; simpl.
  - destruct (readable f) eqn:Hr; simpl.
    + destruct (decode_text (data f)) as [s|] eqn:Hd; simpl; split.
      * intros [= ->]. by exists f.
      * intros (f' & [= <-] & _ & H). rewrite Hd in H. by injection H as ->.
      * done.
      * intros (f' & [= <-] & _ & H). by rewrite Hd in H.
    + split; [done|]. intros (f' & [= <-] & H & _). by rewrite Hr in H.
  - split; [done|]. by intros (f' & H & _).
Qed.

Lemma confined_bind {A B} (m : M A) (k : A -> M B) :
  confined m -> (∀ a, confined (k a)) -> confined (bind m k).
Proof.
  intros Hm Hk w. unfold bind.
  destruct (Hm w) as (Hfs & evs & Hev & Hall).
  destruct (m w) as [[a|e] w1]; simpl in *.
  - destruct (Hk a w1) as (Hfs' & evs' & Hev' & Hall').
    split; [congruence|]. exists (evs ++ evs'). split.
    + by rewrite Hev', Hev, <- app_assoc.
    + by apply Forall_app.
  - split; [done|]. by exists evs.
Qed.

Lemma confined_read : confined (read_text decode_text target).
Proof.
  intros w. rewrite read_text_world. simpl. split; [done|].
  exists [(target, ModeR)]. split; [done|]. by repeat constructor.
Qed.

Lemma confined_write (content : str) :
  confined (write_text encode_text target content).
Proof.
  intros w. unfold write_text.
  destruct (writable _); [destruct (encode_text content)|]; simpl.
  1,2: split; [by rewrite delete_insert_eq|].
  3: split; [done|].
  all: exists [(target, ModeW)]; split; [done|]; by repeat constructor.
Qed.

Lemma confined_print (s : str) : confined (print s).
Proof.
  intros w. simpl. split; [done|]. exists []. by rewrite app_nil_r.
Qed.

End Effects.

Section Runs.

Variable decode_text : list Byte.byte -> option str.
Variable encode_text : str -> option (list Byte.byte).

Lemma apply_pairs_reduce (S : str) :
  apply_pairs reduce_quiz_sizes_pairs S =
  reduce_quiz_sizes_buffer2 (reduce_quiz_sizes_buffer1 S).
Proof. reflexivity. Qed.

(** A run that reads, transforms, writes and goes on with [k], and ends
    well, has put the encoding of the transformed text at [target] before
    [k] starts. *)
Lemma rewrite_run_ok (g : str -> str) (k : M unit) (w : world) (S : str) :
  (read_text decode_text target w).1 = Ok S ->
  ∀ w',
  (do content <- read_text decode_text target ;;
   do _ <- write_text encode_text target (g content) ;;
   k) w = (Ok tt, w') ->
  ∃ f b w1, fs w !! target = Some f ∧ readable f = true ∧
            encode_text (g S) = Some b ∧
            fs w1 = <[target := File b (readable f) (writable f)]> (fs w) ∧
            k w1 = (Ok tt, w').
Proof.
  intros Hr w' Hrun.
  pose proof (read_text_world decode_text target w) as Hw.
  apply read_text_ok in Hr as Hex. destruct Hex as (f & Hf & Hrd & _).
  destruct (read_text decode_text target w) as [r w1] eqn:E. simpl in *.
  subst r w1. unfold bind in Hrun. rewrite E in Hrun.
  unfold write_text in Hrun. simpl in Hrun. rewrite Hf in Hrun. simpl in Hrun.
  destruct (writable f) eqn:Hwr; [|done].
  destruct (encode_text (g S)) as [b|]; [|done].
  eexists f, b, _. rewrite Hwr.
  split; [done|]. split; [done|]. split; [done|]. split; [|exact Hrun]. done.
Qed.

Lemma print_fs (msg : str) (w w' : world) (r : result unit) :
  print msg w = (r, w') -> fs w' = fs w.
Proof. unfold print. by intros [= _ <-]. Qed.

(** What a run of fix_quiz_width_final.py that ends well has written. *)
Lemma fix_run_ok (w w' : world) (S : str) :
  (read_text decode_text target w).1 = Ok S ->
  fix_quiz_width_final decode_text encode_text w = (Ok tt, w') ->
  target_data w' = encode_text (fix_quiz_width_final_buffer S) ∧
  is_Some (target_data w').
Proof.
  intros Hr Hrun.
  destruct (rewrite_run_ok _ _ w S Hr w' Hrun) as (f & b & w1 & _ & _ & Hb & Hfs & Hk).
  apply print_fs in Hk. unfold target_data.
  rewrite Hk, Hfs, lookup_insert_eq, Hb. by split.
Qed.

Lemma reduce_run_ok (w w' : world) (S : str) :
  (read_text decode_text target w).1 = Ok S ->
  reduce_quiz_sizes decode_text encode_text w = (Ok tt, w') ->
  target_data w' = reduce_written decode_text encode_text S ∧
  is_Some (target_data w').
Proof.
  intros Hr Hrun.
  destruct (rewrite_run_ok _ _ w S Hr w' Hrun) as (f & b & w1 & _ & _ & Hb & Hfs & Hk).
  assert (Hr2 : ∃ S2, (read_text decode_text target w1).1 = Ok S2).
  { unfold reduce_quiz_sizes_padding, bind in Hk.
    destruct (read_text decode_text target w1) as [[S2|e] w2]; [by exists S2|done]. }
  destruct Hr2 as [S2 Hr2].
  destruct (rewrite_run_ok _ _ w1 S2 Hr2 w' Hk) as (f2 & b2 & w3 & _ & _ & Hb2 & Hfs2 & Hk2).
  apply read_text_ok in Hr2 as (f1 & Hf1 & _ & Hd1).
  rewrite Hfs, lookup_insert_eq in Hf1. injection Hf1 as <-. simpl in Hd1.
  apply print_fs in Hk2. unfold target_data, reduce_written.
  rewrite Hk2, Hfs2, lookup_insert_eq, Hb. simpl. rewrite Hd1. simpl.
  rewrite Hb2. by split.
Qed.

End Runs.

(** * The claims about the runs *)

(** C7: when opening or reading the target file fails, the script stops
    there with that error: the files and the output are as before, and the
    only [open] made is the one failed attempt to read.  This holds for the
    first read of either script and for the second read of
    reduce_quiz_sizes.py. *)
Theorem read_failure_halts
    (decode_text : list Byte.byte -> option str)
    (encode_text : str -> option (list Byte.byte))
    (w w' : world) (e : error) :
  read_text decode_text target w = (Raise e, w') ->
  fix_quiz_width_final decode_text encode_text w = (Raise e, w') ∧
  reduce_quiz_sizes decode_text encode_text w = (Raise e, w') ∧
  reduce_quiz_sizes_padding decode_text encode_text w = (Raise e, w') ∧
  fs w' = fs w ∧ stdout w' = stdout w ∧
  opened w' = opened w ++ [(target, ModeR)].
Proof.
  intros Hfail.
  pose proof (read_text_world decode_text target w) as Hw.
  rewrite Hfail in Hw. simpl in Hw. subst w'.
  repeat split; by apply bind_raise.
Qed.

Lemma read_failure_halts_witness :
  read_text ascii_decode target (World ∅ [] [] [] ∅) =
    (Raise FileNotFoundError, World ∅ [] [(target, ModeR)] [] ∅) ∧
  fix_quiz_width_final ascii_decode ascii_encode (World ∅ [] [] [] ∅) =
    (Raise FileNotFoundError, World ∅ [] [(target, ModeR)] [] ∅).
Proof.
  split; [reflexivity|].
  apply (read_failure_halts ascii_decode ascii_encode
           (World ∅ [] [] [] ∅) (World ∅ [] [(target, ModeR)] [] ∅) FileNotFoundError).
  reflexivity.
Defined.

(** C10: what a script writes back depends on the text it read and on
    nothing else: two runs whose reads return the same text, and that both
    end well, leave the same bytes at the target. *)
Theorem written_content_deterministic
    (decode_text : list Byte.byte -> option str)
    (encode_text : str -> option (list Byte.byte))
    (w1 w2 : world) (S : str) :
  (read_text decode_text target w1).1 = Ok S ->
  (read_text decode_text target w2).1 = Ok S ->
  ((fix_quiz_width_final decode_text encode_text w1).1 = Ok tt ->
   (fix_quiz_width_final decode_text encode_text w2).1 = Ok tt ->
   target_data (fix_quiz_width_final decode_text encode_text w1).2 =
   target_data (fix_quiz_width_final decode_text encode_text w2).2) ∧
  ((reduce_quiz_sizes decode_text encode_text w1).1 = Ok tt ->
   (reduce_quiz_sizes decode_text encode_text w2).1 = Ok tt ->
   target_data (reduce_quiz_sizes decode_text encode_text w1).2 =
   target_data (reduce_quiz_sizes decode_text encode_text w2).2).
Proof.
  intros Hr1 Hr2. split; intros Hok1 Hok2.
  - destruct (fix_quiz_width_final _ _ w1) as [r1 v1] eqn:E1.
    destruct (fix_quiz_width_final _ _ w2) as [r2 v2] eqn:E2.
    simpl in *. subst r1 r2.
    destruct (fix_run_ok _ _ _ _ _ Hr1 E1) as [-> _].
    by destruct (fix_run_ok _ _ _ _ _ Hr2 E2) as [-> _].
  - destruct (reduce_quiz_sizes _ _ w1) as [r1 v1] eqn:E1.
    destruct (reduce_quiz_sizes _ _ w2) as [r2 v2] eqn:E2.
    simpl in *. subst r1 r2.
    destruct (reduce_run_ok _ _ _ _ _ Hr1 E1) as [-> _].
    by destruct (reduce_run_ok _ _ _ _ _ Hr2 E2) as [-> _].
Qed.

Lemma written_content_deterministic_witness :
  target_data (fix_quiz_width_final ascii_decode ascii_encode
                 (world_with (lit "<div>"))).2 =
  target_data (fix_quiz_width_final ascii_decode ascii_encode
                 (World (<["notes.txt"%string := File [] true false]>
                           (fs (world_with (lit "<div>"))))
                        [lit "earlier output"] []
                        ["--verbose"%string]
                        {[ "HOME"%string := "/tmp"%string ]})).2 ∧
  target_data (reduce_quiz_sizes ascii_decode ascii_encode
                 (world_with (lit "<div>"))).2 =
  target_data (reduce_quiz_sizes ascii_decode ascii_encode
                 (World (<["notes.txt"%string := File [] true false]>
                           (fs (world_with (lit "<div>"))))
                        [lit "earlier output"] []
                        ["--verbose"%string]
                        {[ "HOME"%string := "/tmp"%string ]})).2.
Proof.
  destruct (written_content_deterministic ascii_decode ascii_encode
              (world_with (lit "<div>"))
              (World (<["notes.txt"%string := File [] true false]>
                        (fs (world_with (lit "<div>"))))
                     [lit "earlier output"] []
                     ["--verbose"%string]
                     {[ "HOME"%string := "/tmp"%string ]})
              (lit "<div>")) as [Hfix Hreduce].
  - vm_compute. reflexivity.
  - vm_compute. reflexivity.
  - split; [apply Hfix | apply Hreduce]; vm_compute; reflexivity.
Defined.

(** C5, amended: reduce_quiz_sizes.py applies its first six replacements,
    writes, reads the file back, applies its last two replacements and
    writes again.  When the first write goes through and reading it back
    returns the written text, the run ends as a single pass does that
    applies all eight pairs in order to the text first read and writes
    once: same files, same result, same output. *)
Theorem two_pass_equals_single_pass
    (decode_text : list Byte.byte -> option str)
    (encode_text : str -> option (list Byte.byte))
    (w : world) :
  (∀ S, (read_text decode_text target w).1 = Ok S ->
        ∃ b, encode_text (reduce_quiz_sizes_buffer1 S) = Some b ∧
             decode_text b = Some (reduce_quiz_sizes_buffer1 S)) ->
  fs (reduce_quiz_sizes decode_text encode_text w).2 =
    fs (single_pass decode_text encode_text reduce_quiz_sizes_pairs w).2 ∧
  (reduce_quiz_sizes decode_text encode_text w).1 =
    (single_pass decode_text encode_text reduce_quiz_sizes_pairs w).1 ∧
  stdout (reduce_quiz_sizes decode_text encode_text w).2 =
    stdout (single_pass decode_text encode_text reduce_quiz_sizes_pairs w).2.
Proof.
  intros Hrt.
  unfold reduce_quiz_sizes, single_pass, reduce_quiz_sizes_padding, bind.
  pose proof (read_text_world decode_text target w) as Hw.
  destruct (read_text decode_text target w) as [[S|e] w1] eqn:E; [|done].
  simpl in Hw. subst w1.
  assert (Hr : (read_text decode_text target w).1 = Ok S) by by rewrite E.
  destruct (Hrt S eq_refl) as (b & Hb & Hd). clear Hrt.
  apply read_text_ok in Hr as (f & Hf & Hrd & _).
  rewrite apply_pairs_reduce.
  revert Hb Hd. generalize (reduce_quiz_sizes_buffer1 S). intros S1 Hb Hd.
  unfold write_text, read_text. cbn [fs log_open set_file].
  rewrite Hf. cbn [default from_option id].
  destruct (writable f) eqn:Hwr; [|done]. rewrite Hb.
  cbn [fs log_open set_file]. rewrite !lookup_insert_eq.
  cbn [default from_option id readable writable data]. rewrite Hrd, Hd.
  cbn [fs log_open set_file]. rewrite !lookup_insert_eq.
  cbn [default from_option id readable writable data].
  destruct (encode_text (reduce_quiz_sizes_buffer2 S1)) as [b2|];
    cbn [fs set_file log_open print fst snd stdout];
    by rewrite insert_insert_eq.
Qed.

Lemma two_pass_equals_single_pass_witness :
  fs (reduce_quiz_sizes ascii_decode ascii_encode
        (world_with (lit "h-4 w-4 p-4 sm:p-6"))).2 =
    fs (single_pass ascii_decode ascii_encode reduce_quiz_sizes_pairs
          (world_with (lit "h-4 w-4 p-4 sm:p-6"))).2 ∧
  (reduce_quiz_sizes ascii_decode ascii_encode
     (world_with (lit "h-4 w-4 p-4 sm:p-6"))).1 =
    (single_pass ascii_decode ascii_encode reduce_quiz_sizes_pairs
       (world_with (lit "h-4 w-4 p-4 sm:p-6"))).1 ∧
  stdout (reduce_quiz_sizes ascii_decode ascii_encode
            (world_with (lit "h-4 w-4 p-4 sm:p-6"))).2 =
    stdout (single_pass ascii_decode ascii_encode reduce_quiz_sizes_pairs
              (world_with (lit "h-4 w-4 p-4 sm:p-6"))).2.
Proof.
  apply (two_pass_equals_single_pass ascii_decode ascii_encode
           (world_with (lit "h-4 w-4 p-4 sm:p-6"))).
  intros S HS. vm_compute in HS. injection HS as <-.
  eexists. split; vm_compute; reflexivity.
Defined.

(** C5 as stated fails: the script applies six replacements before its
    first write and eight in all, not four and six.  On the file content
    [h-4 w-4 p-4 sm:p-6] the script ends with [h-3 w-3 p-2 sm:p-3]; a
    single pass over the first four and the last two pairs leaves
    [h-4 w-4], and a single pass over the first six pairs leaves
    [p-4 sm:p-6]. *)
Lemma six_pair_single_pass_differs :
  length reduce_quiz_sizes_pairs1 = 6 ∧
  length reduce_quiz_sizes_pairs = 8 ∧
  target_text (reduce_quiz_sizes ascii_decode ascii_encode
                 (world_with (lit "h-4 w-4 p-4 sm:p-6"))).2 =
    Some (lit "h-3 w-3 p-2 sm:p-3") ∧
  target_text (reduce_quiz_sizes ascii_decode ascii_encode
                 (world_with (lit "h-4 w-4 p-4 sm:p-6"))).2 ≠
    target_text (single_pass ascii_decode ascii_encode claimed_six_pairs
                   (world_with (lit "h-4 w-4 p-4 sm:p-6"))).2 ∧
  target_text (reduce_quiz_sizes ascii_decode ascii_encode
                 (world_with (lit "h-4 w-4 p-4 sm:p-6"))).2 ≠
    target_text (single_pass ascii_decode ascii_encode
                   (take 6 reduce_quiz_sizes_pairs)
                   (world_with (lit "h-4 w-4 p-4 sm:p-6"))).2.
Proof.
  split; [reflexivity|]. split; [reflexivity|].
  split; [vm_compute; reflexivity|].
  split; vm_compute; discriminate.
Qed.

(** * The claims about the buffer *)

Lemma not_contains (s w : str) : contains s w = false ↔ ¬ occurs w s.
Proof. rewrite <- contains_occurs. by destruct (contains s w). Qed.

(** C2: on the buffer [<div className="h-4 w-4">] the replacement of
    [h-4 w-4] by [h-3 w-3] gives [<div className="h-3 w-3">], and so do
    the replacements of reduce_quiz_sizes.py before its first write. *)
Theorem minimal_test_h4_w4 :
  replace (lit "<div className=" ++ q "h-4 w-4" ++ lit ">")
          (lit "h-4 w-4") (lit "h-3 w-3") =
    lit "<div className=" ++ q "h-3 w-3" ++ lit ">" ∧
  reduce_quiz_sizes_buffer1 (lit "<div className=" ++ q "h-4 w-4" ++ lit ">") =
    lit "<div className=" ++ q "h-3 w-3" ++ lit ">".
Proof. split; vm_compute; reflexivity. Qed.

(** C3: when [old] does not occur in the buffer, [replace] returns the
    buffer as it is.  [replace] is a total function to text: it has no
    error result. *)
Theorem replace_absent_is_noop (S old new : str) :
  contains S old = false -> replace S old new = S.
Proof. intros H. apply replace_absent. by apply not_contains. Qed.

Lemma replace_absent_is_noop_witness :
  contains (lit "<div className=>") (lit "h-4 w-4") = false ∧
  replace (lit "<div className=>") (lit "h-4 w-4") (lit "h-3 w-3") =
    lit "<div className=>".
Proof.
  split; [reflexivity|].
  apply (replace_absent_is_noop (lit "<div className=>")). reflexivity.
Defined.

(** No [replace] call of fix_quiz_width_final.py has [old_progress_calc] as
    its old string: the two variables are assigned and never used. *)
Lemma progress_calc_not_replaced :
  old_progress_calc ∉ fix_quiz_width_final_pairs.*1.
Proof. apply (bool_decide_unpack _). vm_compute. exact I. Qed.

(** C4 as stated fails: the script performs no replacement with the pair
    (old_progress_calc, new_progress_calc). *)
Lemma progress_calc_replacement_not_performed :
  ¬ ((old_progress_calc, new_progress_calc) ∈ fix_quiz_width_final_pairs ∧
     ∀ S, replace S old_progress_calc new_progress_calc = S).
Proof.
  intros [Hin _]. apply progress_calc_not_replaced.
  apply list_elem_of_fmap. by exists (old_progress_calc, new_progress_calc).
Qed.

(** C4, amended: fix_quiz_width_final.py defines [old_progress_calc] and
    [new_progress_calc] as the same string and passes them to no [replace]
    call; a replacement with that pair leaves every buffer as it is. *)
Theorem progress_calc_pair_is_identity :
  old_progress_calc = new_progress_calc ∧
  (old_progress_calc ∉ fix_quiz_width_final_pairs.*1) ∧
  ∀ S, replace S old_progress_calc new_progress_calc = S.
Proof.
  split; [reflexivity|]. split; [apply progress_calc_not_replaced|].
  intros S. apply replace_same.
Qed.

(** When [old] is [new] followed by [T], a new occurrence of [old] can
    come up in the output only where an occurrence of [old] in the input
    was followed by [T]. *)
Lemma replace_removes_unless_followed (old new T s : str) :
  old = new ++ T -> old ≠ [] ->
  apartb 1 old new = true -> apartb 1 new old = true ->
  apartb 0 T new = true ->
  ¬ occurs (old ++ T) s -> ¬ occurs old (replace s old new).
Proof.
  intros Hold Hne Hon Hno HT Hs.
  apply no_occurrence_after_replace; [done|done|by apply apartb_spec|done|].
  intros pre rest k Hdec Hk Hp. destruct k as [|k].
  - rewrite drop_0, Hold in Hp. apply prefix_app_inv in Hp.
    apply prefix_replace in Hp; [|by rewrite <- Hold|].
    + destruct Hp as [rest' ->]. apply Hs. exists pre, rest'.
      by rewrite Hdec, <- !app_assoc.
    + intros d Hd. apply (apartb_spec 0 T new HT). lia.
  - revert Hp. apply incomparable_not_prefix.
    apply (apartb_spec 1 new old Hno). lia.
Qed.

(** C8 as stated fails: on the buffer [text-xs sm:text-sm sm:text-sm] the
    first application leaves [text-xs sm:text-sm], in which the old string
    occurs, and the second application changes the buffer to [text-xs]. *)
Lemma text_xs_occurs_after_first_replacement :
  contains (replace (lit "text-xs sm:text-sm sm:text-sm")
                    (lit "text-xs sm:text-sm") (lit "text-xs"))
           (lit "text-xs sm:text-sm") = true ∧
  apply_pairs (take 3 reduce_quiz_sizes_pairs1)
              (lit "text-xs sm:text-sm sm:text-sm") = lit "text-xs sm:text-sm" ∧
  apply_pairs (take 4 reduce_quiz_sizes_pairs1)
              (lit "text-xs sm:text-sm sm:text-sm") = lit "text-xs" ∧
  replace (lit "text-xs sm:text-sm") (lit "text-xs sm:text-sm") (lit "text-xs")
    ≠ lit "text-xs sm:text-sm".
Proof.
  split; [vm_compute; reflexivity|]. split; [vm_compute; reflexivity|].
  split; [vm_compute; reflexivity|]. vm_compute. discriminate.
Qed.

(** C8, amended: in reduce_quiz_sizes.py the replacement of
    [text-xs sm:text-sm] by [text-xs] is called twice, with the replacement
    of [w-8 h-8 sm:w-10 sm:h-10] between the calls.  For every buffer that
    reaches the first call and holds no [text-xs sm:text-sm sm:text-sm],
    the old string occurs neither after the first call nor after the call
    between, and the second call leaves the buffer as it is. *)
Theorem second_text_xs_replacement_is_identity (content : str) :
  contains content (lit "text-xs sm:text-sm sm:text-sm") = false ->
  let b7 := replace content (lit "text-xs sm:text-sm") (lit "text-xs") in
  let b10 := replace b7 (lit "w-8 h-8 sm:w-10 sm:h-10") (lit "w-6 h-6") in
  contains b7 (lit "text-xs sm:text-sm") = false ∧
  contains b10 (lit "text-xs sm:text-sm") = false ∧
  replace b10 (lit "text-xs sm:text-sm") (lit "text-xs") = b10 ∧
  apply_pairs (take 3 (drop 1 reduce_quiz_sizes_pairs1)) content =
    replace b10 (lit "text-xs sm:text-sm") (lit "text-xs").
Proof.
  intros Hc b7 b10.
  assert (H7 : ¬ occurs (lit "text-xs sm:text-sm") b7).
  { apply (replace_removes_unless_followed _ _ (lit " sm:text-sm"));
      [reflexivity | done | reflexivity | reflexivity | reflexivity |].
    by apply not_contains. }
  assert (H10 : ¬ occurs (lit "text-xs sm:text-sm") b10).
  { apply replace_keeps_absent; [done | done | reflexivity | reflexivity | done]. }
  split; [by apply not_contains|]. split; [by apply not_contains|].
  split; [by apply replace_absent | reflexivity].
Qed.

Lemma second_text_xs_replacement_is_identity_witness :
  contains (lit "a text-xs sm:text-sm b") (lit "text-xs sm:text-sm sm:text-sm")
    = false ∧
  replace (replace (replace (lit "a text-xs sm:text-sm b")
                      (lit "text-xs sm:text-sm") (lit "text-xs"))
             (lit "w-8 h-8 sm:w-10 sm:h-10") (lit "w-6 h-6"))
          (lit "text-xs sm:text-sm") (lit "text-xs") =
    replace (replace (lit "a text-xs sm:text-sm b")
               (lit "text-xs sm:text-sm") (lit "text-xs"))
            (lit "w-8 h-8 sm:w-10 sm:h-10") (lit "w-6 h-6").
Proof.
  split; [vm_compute; reflexivity|].
  destruct (second_text_xs_replacement_is_identity
              (lit "a text-xs sm:text-sm b")) as (_ & _ & Hid & _).
  - vm_compute. reflexivity.
  - exact Hid.
Defined.

(** C9: in reduce_quiz_sizes.py, once [p-4 sm:p-6] has been replaced by
    [p-2 sm:p-3], the buffer holds no [p-4 sm:p-6 md:p-8], and the
    replacement of [p-4 sm:p-6 md:p-8] that follows leaves it as it is. *)
Theorem padding_second_replacement_is_identity (content : str) :
  let b := replace content (lit "p-4 sm:p-6") (lit "p-2 sm:p-3") in
  contains b (lit "p-4 sm:p-6 md:p-8") = false ∧
  replace b (lit "p-4 sm:p-6 md:p-8") (lit "p-2 sm:p-3") = b ∧
  reduce_quiz_sizes_buffer2 content = b.
Proof.
  intros b.
  assert (H : ¬ occurs (lit "p-4 sm:p-6 md:p-8") b).
  { apply replace_removes; [done | | reflexivity | reflexivity].
    apply startswith_prefix. reflexivity. }
  split; [by apply not_contains|]. split; [by apply replace_absent|].
  unfold reduce_quiz_sizes_buffer2. fold b. by apply replace_absent.
Qed.

(** * Further properties of the replacements *)

Lemma occurs_trans (w old s : str) : occurs w old -> occurs old s -> occurs w s.
Proof.
  intros (a & b & ->) (pre & post & ->).
  exists (pre ++ a), (b ++ post). by rewrite <- !app_assoc.
Qed.

Lemma length_interleave (new s : str) :
  length s <= length (flat_map (fun c => c :: new) s).
Proof. induction s as [|c s IH]; simpl; [lia|]. rewrite length_app. lia. Qed.

Lemma replace_length_le (s old new : str) :
  length new <= length old -> length (replace s old new) <= length s.
Proof.
  destruct old as [|a old].
  { destruct new as [|b new]; [intros _; by rewrite replace_same | simpl; lia]. }
  intros Hle. induction s as [s IH] using str_length_ind.
  destruct (scan_cases (a :: old) new s) as
    [-> | [(rest & Hs & Hlen & Hr) | (c & s' & Hs & _ & Hr)]]; [done|done|..].
  - rewrite Hr, length_app. specialize (IH rest Hlen).
    pose proof (f_equal length Hs) as HL. rewrite length_app in HL. lia.
  - rewrite Hr. pose proof (f_equal length Hs) as HL. simpl in *.
    specialize (IH s'). lia.
Qed.

Lemma replace_length_ge (s old new : str) :
  length old <= length new -> length s <= length (replace s old new).
Proof.
  destruct old as [|a old].
  { intros _. unfold replace. rewrite length_app.
    pose proof (length_interleave new s). lia. }
  intros Hle. induction s as [s IH] using str_length_ind.
  destruct (scan_cases (a :: old) new s) as
    [-> | [(rest & Hs & Hlen & Hr) | (c & s' & Hs & _ & Hr)]]; [done|done|..].
  - rewrite Hr, length_app. specialize (IH rest Hlen).
    pose proof (f_equal length Hs) as HL. rewrite length_app in HL. lia.
  - rewrite Hr. pose proof (f_equal length Hs) as HL. simpl in *.
    specialize (IH s'). lia.
Qed.

(** A replacement by a different string changes every buffer in which the
    old string occurs. *)
Lemma replace_changes (s old new : str) :
  old ≠ new -> occurs old s -> replace s old new ≠ s.
Proof.
  intros Hne. destruct old as [|a old].
  { intros _ Heq. apply (f_equal length) in Heq. unfold replace in Heq.
    rewrite length_app in Heq. pose proof (length_interleave new s).
    destruct new; [done | simpl in Heq; lia]. }
  induction s as [s IH] using str_length_ind. intros Hocc Heq.
  destruct (scan_cases (a :: old) new s) as
    [-> | [(rest & Hs & Hlen & Hr) | (c & s' & Hs & Hnp & Hr)]]; [done| | |].
  - by apply occurs_nil in Hocc.
  - rewrite Hr, Hs in Heq.
    destruct (lt_eq_lt_dec (length new) (length (a :: old))) as [[Hlt|Hlen']|Hgt].
    + apply (f_equal length) in Heq. rewrite !length_app in Heq.
      pose proof (replace_length_le rest (a :: old) new). lia.
    + apply app_inj_1 in Heq as [Heq _]; [|done]. by apply Hne.
    + apply (f_equal length) in Heq. rewrite !length_app in Heq.
      pose proof (replace_length_ge rest (a :: old) new). lia.
  - rewrite Hr, Hs in Heq. injection Heq as Heq.
    apply (IH s'); [rewrite Hs; simpl; lia | | done].
    rewrite Hs in Hocc. by apply occurs_cons in Hocc as [Hp|Ho]; [rewrite Hs in Hnp|].
Qed.

(** X1: [replace] returns the buffer unchanged exactly when the old
    string does not occur in it or the old and new strings are the same. *)
Theorem replace_changes_iff (s old new : str) :
  replace s old new = s ↔ (contains s old = false ∨ old = new).
Proof.
  split.
  - intros Heq. destruct (decide (old = new)) as [|Hne]; [by right|left].
    apply not_contains. intros Hocc. by apply (replace_changes s old new).
  - intros [Hno | ->]; [|apply replace_same].
    apply replace_absent. by apply not_contains.
Qed.

Lemma apply_pairs_app (ps qs : list (str * str)) (s : str) :
  apply_pairs (ps ++ qs) s = apply_pairs qs (apply_pairs ps s).
Proof. apply fold_left_app. Qed.

Lemma apply_pairs_length_ge (ps : list (str * str)) (s : str) :
  forallb (fun p => Nat.leb (length p.1) (length p.2)) ps = true ->
  length s <= length (apply_pairs ps s).
Proof.
  revert s. induction ps as [|p ps IH]; intros s H; simpl in *; [done|].
  apply andb_prop in H as [Hp Hps]. apply Nat.leb_le in Hp.
  etransitivity; [by apply (replace_length_ge s p.1 p.2)|]. by apply IH.
Qed.

Lemma apply_pairs_length_le (ps : list (str * str)) (s : str) :
  forallb (fun p => Nat.leb (length p.2) (length p.1)) ps = true ->
  length (apply_pairs ps s) <= length s.
Proof.
  revert s. induction ps as [|p ps IH]; intros s H; simpl in *; [done|].
  apply andb_prop in H as [Hp Hps]. apply Nat.leb_le in Hp.
  etransitivity; [by apply IH|]. by apply (replace_length_le s p.1 p.2).
Qed.

(** X2: fix_quiz_width_final.py never shortens the text: each of its nine
    new strings is at least as long as the old one it stands for. *)
Theorem fix_never_shortens (S : str) :
  length S <= length (fix_quiz_width_final_buffer S).
Proof.
  change (fix_quiz_width_final_buffer S)
    with (apply_pairs fix_quiz_width_final_pairs S).
  apply apply_pairs_length_ge. vm_compute. reflexivity.
Qed.

(** X3: reduce_quiz_sizes.py never lengthens the text, and its padding
    pass keeps the length as it is. *)
Theorem reduce_never_lengthens (S : str) :
  length (reduce_quiz_sizes_buffer2 (reduce_quiz_sizes_buffer1 S)) <= length S ∧
  length (reduce_quiz_sizes_buffer2 S) = length S.
Proof.
  split.
  - change (reduce_quiz_sizes_buffer2 (reduce_quiz_sizes_buffer1 S))
      with (apply_pairs reduce_quiz_sizes_pairs S).
    apply apply_pairs_length_le. vm_compute. reflexivity.
  - unfold reduce_quiz_sizes_buffer2.
    rewrite (replace_absent _ (lit "p-4 sm:p-6 md:p-8")).
    + apply Nat.le_antisymm;
        [apply replace_length_le | apply replace_length_ge]; vm_compute; lia.
    + apply replace_removes; [done | | reflexivity | reflexivity].
      apply startswith_prefix. reflexivity.
Qed.

Lemma nonempty_spec (s : str) : nonempty s = true -> s ≠ [].
Proof. by destruct s. Qed.

Lemma clear_of_keeps_absent (w : str) (p : str * str) (s : str) :
  w ≠ [] -> clear_of w p = true ->
  ¬ occurs w s -> ¬ occurs w (replace s p.1 p.2).
Proof.
  unfold clear_of. intros Hw H Hno.
  apply andb_prop in H as [H H0]. apply andb_prop in H as [Hne H1].
  apply replace_keeps_absent; [by apply nonempty_spec|done..].
Qed.

Lemma clear_of_removes (p : str * str) (s : str) :
  clear_of p.1 p = true -> ¬ occurs p.1 (replace s p.1 p.2).
Proof.
  unfold clear_of. intros H.
  apply andb_prop in H as [H H0]. apply andb_prop in H as [Hne H1].
  apply replace_removes; [by apply nonempty_spec|done..].
Qed.

(** An absent word stays absent through a list of pairs that are all
    clear of it. *)
Lemma absent_through (w : str) (ps : list (str * str)) (s : str) :
  w ≠ [] -> forallb (clear_of w) ps = true ->
  ¬ occurs w s -> ¬ occurs w (apply_pairs ps s).
Proof.
  intros Hw. revert s. induction ps as [|p ps IH]; intros s H Hno; [done|].
  simpl in H. apply andb_prop in H as [Hp Hps].
  apply (IH _ Hps). by apply clear_of_keeps_absent.
Qed.

(** After a list of pairs without regrowth, no old string of the list is
    left in the buffer. *)
Lemma no_regrowth_absent (ps : list (str * str)) (s : str) :
  no_regrowth ps = true ->
  Forall (fun p => ¬ occurs p.1 (apply_pairs ps s)) ps.
Proof.
  revert s. induction ps as [|p ps IH]; intros s H; [constructor|].
  cbn [no_regrowth] in H.
  apply andb_prop in H as [H Hrec]. apply andb_prop in H as [Hp Hps].
  constructor; [|by apply IH].
  change (apply_pairs (p :: ps) s) with (apply_pairs ps (replace s p.1 p.2)).
  apply absent_through; [|done|by apply clear_of_removes].
  unfold clear_of in Hp. apply andb_prop in Hp as [Hp _].
  apply andb_prop in Hp as [Hp _]. by apply nonempty_spec.
Qed.

Lemma apply_pairs_absent (ps : list (str * str)) (s : str) :
  Forall (fun p => ¬ occurs p.1 s) ps -> apply_pairs ps s = s.
Proof.
  induction 1 as [|p ps Hp _ IH]; [done|].
  change (apply_pairs (p :: ps) s) with (apply_pairs ps (replace s p.1 p.2)).
  by rewrite replace_absent.
Qed.

Lemma no_regrowth_idempotent (ps : list (str * str)) (s : str) :
  no_regrowth ps = true ->
  apply_pairs ps (apply_pairs ps s) = apply_pairs ps s.
Proof. intros H. by apply apply_pairs_absent, no_regrowth_absent. Qed.

(** X4: the replacements of fix_quiz_width_final.py, applied to their own
    result, change nothing: a second pass over the text is a no-op. *)
Theorem fix_buffer_idempotent (S : str) :
  fix_quiz_width_final_buffer (fix_quiz_width_final_buffer S) =
  fix_quiz_width_final_buffer S.
Proof.
  change (fix_quiz_width_final_buffer (fix_quiz_width_final_buffer S))
    with (apply_pairs fix_quiz_width_final_pairs
            (apply_pairs fix_quiz_width_final_pairs S)).
  change (fix_quiz_width_final_buffer S)
    with (apply_pairs fix_quiz_width_final_pairs S).
  apply no_regrowth_idempotent. vm_compute. reflexivity.
Qed.

(** X5: the padding replacements of reduce_quiz_sizes.py, applied to
    their own result, change nothing. *)
Theorem reduce_padding_idempotent (S : str) :
  reduce_quiz_sizes_buffer2 (reduce_quiz_sizes_buffer2 S) =
  reduce_quiz_sizes_buffer2 S.
Proof.
  change (reduce_quiz_sizes_buffer2 (reduce_quiz_sizes_buffer2 S))
    with (apply_pairs reduce_quiz_sizes_pairs2
            (apply_pairs reduce_quiz_sizes_pairs2 S)).
  change (reduce_quiz_sizes_buffer2 S)
    with (apply_pairs reduce_quiz_sizes_pairs2 S).
  apply no_regrowth_idempotent. vm_compute. reflexivity.
Qed.

(** X6: the text that reduce_quiz_sizes.py leaves holds neither
    [h-2 sm:h-3] nor [p-4 sm:p-6], so on that text the second to fifth
    replacements of fix_quiz_width_final.py, whose old strings hold one of
    the two, find nothing: only the first and the last four calls act. *)
Theorem fix_after_reduce_skips_size_fixes (S : str) :
  let R := reduce_quiz_sizes_buffer2 (reduce_quiz_sizes_buffer1 S) in
  contains R (lit "h-2 sm:h-3") = false ∧
  contains R (lit "p-4 sm:p-6") = false ∧
  fix_quiz_width_final_buffer R = apply_pairs fix_pairs_without_sizes R.
Proof.
  intros R.
  assert (Hh : ¬ occurs (lit "h-2 sm:h-3") R).
  { subst R.
    change (reduce_quiz_sizes_buffer2 (reduce_quiz_sizes_buffer1 S))
      with (apply_pairs reduce_quiz_sizes_pairs2
              (replace (apply_pairs (take 5 reduce_quiz_sizes_pairs1) S)
                 (lit "h-2 sm:h-3") (lit "h-1.5"))).
    apply absent_through; [done | vm_compute; reflexivity |].
    apply (clear_of_removes (lit "h-2 sm:h-3", lit "h-1.5")).
    vm_compute. reflexivity. }
  assert (Hp : ¬ occurs (lit "p-4 sm:p-6") R).
  { subst R. generalize (reduce_quiz_sizes_buffer1 S). intros T.
    change (reduce_quiz_sizes_buffer2 T)
      with (apply_pairs (drop 1 reduce_quiz_sizes_pairs2)
              (replace T (lit "p-4 sm:p-6") (lit "p-2 sm:p-3"))).
    apply absent_through; [done | vm_compute; reflexivity |].
    apply (clear_of_removes (lit "p-4 sm:p-6", lit "p-2 sm:p-3")).
    vm_compute. reflexivity. }
  split; [by apply not_contains|]. split; [by apply not_contains|].
  generalize dependent R. intros R Hh Hp.
  change (fix_quiz_width_final_buffer R)
    with (apply_pairs (take 1 fix_quiz_width_final_pairs ++
                       take 4 (drop 1 fix_quiz_width_final_pairs) ++
                       drop 5 fix_quiz_width_final_pairs) R).
  unfold fix_pairs_without_sizes. rewrite !apply_pairs_app. f_equal.
  apply apply_pairs_absent.
  set (R1 := apply_pairs (take 1 fix_quiz_width_final_pairs) R).
  assert (Hh1 : ¬ occurs (lit "h-2 sm:h-3") R1).
  { apply absent_through; [done | vm_compute; reflexivity | done]. }
  assert (Hp1 : ¬ occurs (lit "p-4 sm:p-6") R1).
  { apply absent_through; [done | vm_compute; reflexivity | done]. }
  clearbody R1.
  assert (Hall : forallb (fun p : str * str =>
                    contains p.1 (lit "h-2 sm:h-3") ||
                    contains p.1 (lit "p-4 sm:p-6"))
                   (take 4 (drop 1 fix_quiz_width_final_pairs)) = true)
    by (vm_compute; reflexivity).
  rewrite forallb_forall in Hall. apply Forall_forall. intros p Hin.
  apply list_elem_of_In, Hall in Hin. apply orb_prop in Hin as [H|H];
    apply contains_occurs in H; intros Ho.
  - apply Hh1. by apply (occurs_trans _ p.1).
  - apply Hp1. by apply (occurs_trans _ p.1).
Qed.

(** An occurrence of [old] that begins inside [X] and is seen in
    [X ++ old ++ rest] is already seen in [X] followed by all but the last
    character of [old]. *)
Lemma prefix_cut (old X rest : str) :
  X ≠ [] -> old `prefix_of` (X ++ old ++ rest) ->
  old `prefix_of` (X ++ take (length old - 1) old).
Proof.
  intros HX [k Hk].
  assert (Ht : take (length old) (X ++ old ++ rest) = old)
    by (rewrite Hk; apply take_app_length).
  rewrite <- (take_drop (length old - 1) old) in Ht at 2.
  rewrite <- app_assoc, (app_assoc X) in Ht.
  rewrite take_app_le in Ht.
  - rewrite <- Ht at 1. apply prefix_take.
  - rewrite length_app, length_take. destruct X; [done|simpl; lia].
Qed.

(** X7: [replace] takes the leftmost occurrence first and goes on after
    it: when [old] begins nowhere in [pre], the text [pre] is kept, the
    [old] that follows becomes [new], and the scan continues with what
    comes after that occurrence. *)
Theorem replace_first_occurrence (pre old new rest : str) :
  nonempty old = true ->
  contains (pre ++ take (length old - 1) old) old = false ->
  replace (pre ++ old ++ rest) old new = pre ++ new ++ replace rest old new.
Proof.
  intros Hne. apply nonempty_spec in Hne.
  induction pre as [|c pre IH]; intros Hno.
  - simpl. by apply replace_hit.
  - change ((c :: pre) ++ take (length old - 1) old)
      with (c :: (pre ++ take (length old - 1) old)) in Hno.
    cbn [contains] in Hno. apply orb_false_elim in Hno as [Hhere Hlater].
    change ((c :: pre) ++ old ++ rest) with (c :: (pre ++ old ++ rest)).
    rewrite replace_miss; [|done|].
    + simpl. f_equal. by apply IH.
    + apply startswith_false. intros Hp.
      apply startswith_false in Hhere. apply Hhere.
      by apply (prefix_cut old (c :: pre) rest).
Qed.

Lemma replace_first_occurrence_witness :
  replace (lit "w-4 " ++ lit "h-4 w-4" ++ lit " h-4 w-4")
          (lit "h-4 w-4") (lit "h-3 w-3") =
  lit "w-4 " ++ lit "h-3 w-3" ++
  replace (lit " h-4 w-4") (lit "h-4 w-4") (lit "h-3 w-3").
Proof.
  apply (replace_first_occurrence (lit "w-4 ") (lit "h-4 w-4")
           (lit "h-3 w-3") (lit " h-4 w-4")).
  - vm_compute. reflexivity.
  - vm_compute. reflexivity.
Defined.

(** * Further properties of the runs *)

Section Steps.

Variable decode_text : list Byte.byte -> option str.
Variable encode_text : str -> option (list Byte.byte).

(** One read-transform-write step on a target that is there, readable and
    decodable: what the write does, and where the rest of the script
    starts. *)
Lemma rewrite_step (g : str -> str) (k : M unit) (w : world) (f : file) (S : str) :
  fs w !! target = Some f -> readable f = true ->
  decode_text (data f) = Some S ->
  (do content <- read_text decode_text target ;;
   do _ <- write_text encode_text target (g content) ;;
   k) w =
  if writable f then
    match encode_text (g S) with
    | Some b =>
        k (World (<[target := File b true true]> (fs w)) (stdout w)
                 (opened w ++ [(target, ModeR); (target, ModeW)])
                 (argv w) (environ w))
    | None =>
        (Raise UnicodeEncodeError,
         World (<[target := File [] true true]> (fs w)) (stdout w)
               (opened w ++ [(target, ModeR); (target, ModeW)])
               (argv w) (environ w))
    end
  else
    (Raise PermissionError,
     World (fs w) (stdout w) (opened w ++ [(target, ModeR); (target, ModeW)])
           (argv w) (environ w)).
Proof.
  intros Hf Hrd Hd. unfold bind, read_text, write_text.
  rewrite Hf, Hrd, Hd. cbn [fs log_open]. rewrite Hf.
  cbn [default from_option id]. rewrite Hrd.
  destruct (writable f); [destruct (encode_text (g S))|];
    unfold set_file, log_open; cbn [fs stdout opened];
    by rewrite <- app_assoc.
Qed.

Lemma announces_print (msg : str) : announces msg (print msg).
Proof. by intros w. Qed.

Lemma announces_rewrite (msg : str) (g : str -> str) (k : M unit) :
  announces msg k ->
  announces msg (do content <- read_text decode_text target ;;
                 do _ <- write_text encode_text target (g content) ;;
                 k).
Proof.
  intros Hk w. unfold bind.
  pose proof (read_text_world decode_text target w) as Hw.
  destruct (read_text decode_text target w) as [[S|e] w1]; simpl in Hw;
    subst w1; [|done].
  unfold write_text.
  destruct (writable _); [destruct (encode_text (g S))|]; [|done|done].
  exact (Hk _).
Qed.

End Steps.

(** X8: on a target that is there, readable, writable and decodable, and
    whose new text encodes, fix_quiz_width_final.py ends without error: the
    file holds the encoding of the transformed text, the message is printed
    once, and the file was opened once to read and once to write. *)
Theorem fix_run_succeeds
    (decode_text : list Byte.byte -> option str)
    (encode_text : str -> option (list Byte.byte))
    (w : world) (f : file) (S : str) (b : list Byte.byte) :
  fs w !! target = Some f -> readable f = true -> writable f = true ->
  decode_text (data f) = Some S ->
  encode_text (fix_quiz_width_final_buffer S) = Some b ->
  fix_quiz_width_final decode_text encode_text w =
    (Ok tt,
     World (<[target := File b true true]> (fs w))
           (stdout w ++ [lit "File updated successfully!"])
           (opened w ++ [(target, ModeR); (target, ModeW)])
           (argv w) (environ w)).
Proof.
  intros Hf Hrd Hwr Hd Hb. unfold fix_quiz_width_final.
  rewrite (rewrite_step _ _ _ _ w f S Hf Hrd Hd), Hwr, Hb. reflexivity.
Qed.

Lemma fix_run_succeeds_witness :
  (fix_quiz_width_final ascii_decode ascii_encode
     (world_with (lit "<div>"))).1 = Ok tt.
Proof.
  rewrite (fix_run_succeeds ascii_decode ascii_encode
             (world_with (lit "<div>"))
             (File (default [] (ascii_encode (lit "<div>"))) true true)
             (lit "<div>")
             (default [] (ascii_encode (lit "<div>"))));
    vm_compute; reflexivity.
Defined.

(** X9: on a target that is there, readable, writable and decodable,
    when the first write encodes and reads back as written and the final
    text encodes, reduce_quiz_sizes.py ends without error: the file holds
    the encoding of the text with all eight pairs applied, the message is
    printed once, and the file was opened to read, write, read and write. *)
Theorem reduce_run_succeeds
    (decode_text : list Byte.byte -> option str)
    (encode_text : str -> option (list Byte.byte))
    (w : world) (f : file) (S : str) (b1 b2 : list Byte.byte) :
  fs w !! target = Some f -> readable f = true -> writable f = true ->
  decode_text (data f) = Some S ->
  encode_text (reduce_quiz_sizes_buffer1 S) = Some b1 ->
  decode_text b1 = Some (reduce_quiz_sizes_buffer1 S) ->
  encode_text (apply_pairs reduce_quiz_sizes_pairs S) = Some b2 ->
  reduce_quiz_sizes decode_text encode_text w =
    (Ok tt,
     World (<[target := File b2 true true]> (fs w))
           (stdout w ++ [lit "Reduced all sizes!"])
           (opened w ++ [(target, ModeR); (target, ModeW);
                         (target, ModeR); (target, ModeW)])
           (argv w) (environ w)).
Proof.
  intros Hf Hrd Hwr Hd Hb1 Hd1 Hb2. unfold reduce_quiz_sizes.
  rewrite (rewrite_step _ _ _ _ w f S Hf Hrd Hd), Hwr, Hb1.
  unfold reduce_quiz_sizes_padding.
  rewrite (rewrite_step _ _ _ _ _ (File b1 true true)
             (reduce_quiz_sizes_buffer1 S));
    [|apply lookup_insert_eq|done|done].
  cbn [writable fs stdout opened]. rewrite apply_pairs_reduce in Hb2.
  rewrite Hb2. unfold print. cbn [fs stdout opened].
  by rewrite insert_insert_eq, <- app_assoc.
Qed.

Lemma reduce_run_succeeds_witness :
  target_text (reduce_quiz_sizes ascii_decode ascii_encode
                 (world_with (lit "h-4 w-4 p-4 sm:p-6"))).2 =
  Some (apply_pairs reduce_quiz_sizes_pairs (lit "h-4 w-4 p-4 sm:p-6")).
Proof.
  rewrite (reduce_run_succeeds ascii_decode ascii_encode
             (world_with (lit "h-4 w-4 p-4 sm:p-6"))
             (File (default [] (ascii_encode (lit "h-4 w-4 p-4 sm:p-6"))) true true)
             (lit "h-4 w-4 p-4 sm:p-6")
             (default [] (ascii_encode (lit "h-3 w-3 p-4 sm:p-6")))
             (default [] (ascii_encode (lit "h-3 w-3 p-2 sm:p-3"))));
    vm_compute; reflexivity.
Defined.

(** X10: when the target can be read but not written, each script raises
    PermissionError at its first write: no file changes, nothing is
    printed, and the file was opened once to read and once to write. *)
Theorem write_denied_leaves_file
    (decode_text : list Byte.byte -> option str)
    (encode_text : str -> option (list Byte.byte))
    (w : world) (f : file) (S : str) :
  fs w !! target = Some f -> readable f = true -> writable f = false ->
  decode_text (data f) = Some S ->
  fix_quiz_width_final decode_text encode_text w =
    (Raise PermissionError,
     World (fs w) (stdout w) (opened w ++ [(target, ModeR); (target, ModeW)])
           (argv w) (environ w)) ∧
  reduce_quiz_sizes decode_text encode_text w =
    (Raise PermissionError,
     World (fs w) (stdout w) (opened w ++ [(target, ModeR); (target, ModeW)])
           (argv w) (environ w)).
Proof.
  intros Hf Hrd Hwr Hd. unfold fix_quiz_width_final, reduce_quiz_sizes.
  by rewrite !(rewrite_step _ _ _ _ w f S Hf Hrd Hd), Hwr.
Qed.

Lemma write_denied_leaves_file_witness :
  fix_quiz_width_final ascii_decode ascii_encode
    (World {[ target := File [] true false ]} [] [] [] ∅) =
    (Raise PermissionError,
     World {[ target := File [] true false ]} []
           [(target, ModeR); (target, ModeW)] [] ∅).
Proof.
  destruct (write_denied_leaves_file ascii_decode ascii_encode
              (World {[ target := File [] true false ]} [] [] [] ∅)
              (File [] true false) []) as [Hfix _].
  - vm_compute. reflexivity.
  - reflexivity.
  - reflexivity.
  - vm_compute. reflexivity.
  - exact Hfix.
Defined.

(** X11: each script prints its message exactly when it ends without
    error: once after the last write, and nothing on any failing run. *)
Theorem message_iff_success
    (decode_text : list Byte.byte -> option str)
    (encode_text : str -> option (list Byte.byte)) :
  announces (lit "File updated successfully!")
            (fix_quiz_width_final decode_text encode_text) ∧
  announces (lit "Reduced all sizes!")
            (reduce_quiz_sizes decode_text encode_text).
Proof.
  split.
  - apply announces_rewrite, announces_print.
  - apply announces_rewrite, announces_rewrite, announces_print.
Qed.

(** X12: a second run of fix_quiz_width_final.py on the file that a first
    run has written, when that file reads back as written, ends without
    error and leaves every file as the first run left it. *)
Theorem fix_rerun_changes_nothing
    (decode_text : list Byte.byte -> option str)
    (encode_text : str -> option (list Byte.byte))
    (w : world) (f : file) (S : str) (b : list Byte.byte) :
  fs w !! target = Some f -> readable f = true -> writable f = true ->
  decode_text (data f) = Some S ->
  encode_text (fix_quiz_width_final_buffer S) = Some b ->
  decode_text b = Some (fix_quiz_width_final_buffer S) ->
  (fix_quiz_width_final decode_text encode_text
     (fix_quiz_width_final decode_text encode_text w).2).1 = Ok tt ∧
  fs (fix_quiz_width_final decode_text encode_text
        (fix_quiz_width_final decode_text encode_text w).2).2 =
    fs (fix_quiz_width_final decode_text encode_text w).2.
Proof.
  intros Hf Hrd Hwr Hd Hb Hdb.
  assert (Hid : fix_quiz_width_final_buffer (fix_quiz_width_final_buffer S) =
                fix_quiz_width_final_buffer S).
  { change (apply_pairs fix_quiz_width_final_pairs
              (apply_pairs fix_quiz_width_final_pairs S) =
            apply_pairs fix_quiz_width_final_pairs S).
    apply no_regrowth_idempotent. vm_compute. reflexivity. }
  assert (H1 : fix_quiz_width_final decode_text encode_text w =
                (Ok tt,
                 World (<[target := File b true true]> (fs w))
                       (stdout w ++ [lit "File updated successfully!"])
                       (opened w ++ [(target, ModeR); (target, ModeW)])
                       (argv w) (environ w))).
  { unfold fix_quiz_width_final.
    by rewrite (rewrite_step _ _ _ _ w f S Hf Hrd Hd), Hwr, Hb. }
  rewrite H1. cbn [snd]. unfold fix_quiz_width_final.
  rewrite (rewrite_step _ _ _ _ _ (File b true true)
             (fix_quiz_width_final_buffer S));
    [|apply lookup_insert_eq|done|done].
  cbn [writable fs]. rewrite Hid, Hb.
  unfold print. cbn [fst snd fs]. by rewrite insert_insert_eq.
Qed.

Lemma fix_rerun_changes_nothing_witness :
  (fix_quiz_width_final ascii_decode ascii_encode
     (fix_quiz_width_final ascii_decode ascii_encode
        (world_with (lit "      <div className=" ++
                     q "space-y-4 w-full max-w-full overflow-x-hidden" ++
                     lit ">"))).2).1 = Ok tt ∧
  fs (fix_quiz_width_final ascii_decode ascii_encode
        (fix_quiz_width_final ascii_decode ascii_encode
           (world_with (lit "      <div className=" ++
                        q "space-y-4 w-full max-w-full overflow-x-hidden" ++
                        lit ">"))).2).2 =
    fs (fix_quiz_width_final ascii_decode ascii_encode
          (world_with (lit "      <div className=" ++
                       q "space-y-4 w-full max-w-full overflow-x-hidden" ++
                       lit ">"))).2.
Proof.
  apply (fix_rerun_changes_nothing ascii_decode ascii_encode
           (world_with (lit "      <div className=" ++
                        q "space-y-4 w-full max-w-full overflow-x-hidden" ++
                        lit ">"))
           (File (default [] (ascii_encode
                    (lit "      <div className=" ++
                     q "space-y-4 w-full max-w-full overflow-x-hidden" ++
                     lit ">"))) true true)
           (lit "      <div className=" ++
            q "space-y-4 w-full max-w-full overflow-x-hidden" ++ lit ">")
           (default [] (ascii_encode
              (fix_quiz_width_final_buffer
                 (lit "      <div className=" ++
                  q "space-y-4 w-full max-w-full overflow-x-hidden" ++
                  lit ">")))));
    vm_compute; reflexivity.
Defined.

(** The old string of a pair is gone after the list when the pair clears
    itself and every pair after it is clear of it. *)
Lemma absent_after_own (ps pre : list (str * str)) (old new : str)
    (post : list (str * str)) (s : str) :
  ps = pre ++ (old, new) :: post ->
  clear_of old (old, new) = true -> forallb (clear_of old) post = true ->
  ¬ occurs old (apply_pairs ps s).
Proof.
  intros -> Hp Hpost. rewrite apply_pairs_app.
  change (apply_pairs ((old, new) :: post) (apply_pairs pre s))
    with (apply_pairs post (replace (apply_pairs pre s) old new)).
  apply absent_through; [|done|by apply (clear_of_removes (old, new))].
  unfold clear_of in Hp. apply andb_prop in Hp as [Hp _].
  apply andb_prop in Hp as [Hp _]. by apply nonempty_spec.
Qed.

(** X13: the text that reduce_quiz_sizes.py leaves holds none of its old
    strings other than [text-xs sm:text-sm]. *)
Theorem reduce_output_free_of_old_strings (S : str) :
  Forall (fun old =>
            contains (reduce_quiz_sizes_buffer2 (reduce_quiz_sizes_buffer1 S))
                     old = false)
         [ lit "text-sm sm:text-base font-medium";
           lit "w-8 h-8 sm:w-10 sm:h-10";
           lit "h-4 w-4";
           lit "h-2 sm:h-3";
           lit "p-4 sm:p-6";
           lit "p-4 sm:p-6 md:p-8" ].
Proof.
  change (reduce_quiz_sizes_buffer2 (reduce_quiz_sizes_buffer1 S))
    with (apply_pairs reduce_quiz_sizes_pairs S).
  generalize (eq_refl reduce_quiz_sizes_pairs).
  generalize reduce_quiz_sizes_pairs at 1 3. intros ps Hps.
  repeat constructor; apply not_contains.
  - apply (absent_after_own ps (take 0 reduce_quiz_sizes_pairs) _
             (lit "text-xs font-medium") (drop 1 reduce_quiz_sizes_pairs));
      [by rewrite Hps | vm_compute; reflexivity..].
  - apply (absent_after_own ps (take 2 reduce_quiz_sizes_pairs) _
             (lit "w-6 h-6") (drop 3 reduce_quiz_sizes_pairs));
      [by rewrite Hps | vm_compute; reflexivity..].
  - apply (absent_after_own ps (take 4 reduce_quiz_sizes_pairs) _
             (lit "h-3 w-3") (drop 5 reduce_quiz_sizes_pairs));
      [by rewrite Hps | vm_compute; reflexivity..].
  - apply (absent_after_own ps (take 5 reduce_quiz_sizes_pairs) _
             (lit "h-1.5") (drop 6 reduce_quiz_sizes_pairs));
      [by rewrite Hps | vm_compute; reflexivity..].
  - apply (absent_after_own ps (take 6 reduce_quiz_sizes_pairs) _
             (lit "p-2 sm:p-3") (drop 7 reduce_quiz_sizes_pairs));
      [by rewrite Hps | vm_compute; reflexivity..].
  - apply (absent_after_own ps (take 7 reduce_quiz_sizes_pairs) _
             (lit "p-2 sm:p-3") (drop 8 reduce_quiz_sizes_pairs));
      [by rewrite Hps | vm_compute; reflexivity..].
Qed.

(** * [replace] is whole-buffer literal substitution *)

Lemma occurs_length (w s : str) : occurs w s -> length w <= length s.
Proof. intros (pre & post & ->). rewrite !length_app. lia. Qed.

Lemma occurs_all (s : str) : occurs [] s.
Proof. by exists [], s. Qed.

(** All but the last character of [old] cannot hold [old]. *)
Lemma not_occurs_take (old : str) :
  old ≠ [] -> ¬ occurs old (take (length old - 1) old).
Proof.
  intros Hne Ho. apply occurs_length in Ho. rewrite length_take in Ho.
  destruct old; [done | simpl in Ho; lia].
Qed.

(** A buffer that holds [old] splits at the first place where [old]
    begins. *)
Lemma first_occurrence (old s : str) :
  old ≠ [] -> occurs old s ->
  ∃ pre rest, s = pre ++ old ++ rest ∧
              ¬ occurs old (pre ++ take (length old - 1) old).
Proof.
  intros Hne. induction s as [|c s IH]; intros Ho.
  - by apply occurs_nil in Ho.
  - destruct (startswith (c :: s) old) eqn:E.
    + apply startswith_prefix in E as [rest E]. exists [], rest.
      split; [done|]. by apply not_occurs_take.
    + apply startswith_false in E.
      apply occurs_cons in Ho as [Hp|Ho]; [done|].
      destruct (IH Ho) as (pre & rest & Hs & Hno).
      exists (c :: pre), rest. split; [by rewrite Hs|].
      intros Hoc. apply occurs_cons in Hoc as [Hp|Hoc]; [|done].
      apply E. etransitivity; [exact Hp|]. rewrite Hs.
      apply prefix_cons, prefix_app, prefix_app_r, prefix_take.
Qed.

(** The scan keeps the text before the first occurrence, puts [new] for
    it, and goes on after it. *)
Lemma replace_leftmost (pre old new rest : str) :
  old ≠ [] -> ¬ occurs old (pre ++ take (length old - 1) old) ->
  replace (pre ++ old ++ rest) old new = pre ++ new ++ replace rest old new.
Proof.
  intros Hne. induction pre as [|c pre IH]; intros Hno.
  - simpl. by apply replace_hit.
  - change ((c :: pre) ++ old ++ rest) with (c :: (pre ++ old ++ rest)).
    rewrite replace_miss; [|done|].
    + simpl. f_equal. apply IH. intros Ho. apply Hno.
      by apply (occurs_skip _ [c]).
    + apply startswith_false. intros Hp. apply Hno, occurs_prefix.
      by apply (prefix_cut old (c :: pre) rest).
Qed.

(** What [replace] returns is the literal substitution. *)
Lemma replace_substitutes (old new s : str) :
  old ≠ [] -> literal_substitution old new s (replace s old new).
Proof.
  intros Hne. induction s as [s IH] using str_length_ind.
  destruct (contains s old) eqn:E.
  - apply contains_occurs in E.
    destruct (first_occurrence old s Hne E) as (pre & rest & -> & Hno).
    rewrite replace_leftmost by done.
    apply subst_leftmost; [done|]. apply IH.
    rewrite !length_app. destruct old; [done | simpl; lia].
  - apply not_contains in E. rewrite replace_absent by done.
    by apply subst_absent.
Qed.

(** The literal substitution is what [replace] returns, and nothing
    else. *)
Lemma substitution_is_replace (old new s r : str) :
  literal_substitution old new s r -> r = replace s old new.
Proof.
  induction 1 as [s Hno | pre rest r Hno _ IH].
  - by rewrite replace_absent.
  - rewrite replace_leftmost; [by rewrite IH| |done].
    intros ->. apply Hno, occurs_all.
Qed.

Lemma in_order_apply_pairs (ps : list (str * str)) (s out : str) :
  forallb (fun p => nonempty p.1) ps = true ->
  substituted_in_order ps s out ↔ out = apply_pairs ps s.
Proof.
  intros Hne. split.
  - induction 1 as [s | old new ps s mid out Hsub _ IH]; [done|].
    simpl in Hne. apply andb_prop in Hne as [_ Hne].
    apply substitution_is_replace in Hsub as ->. by apply IH.
  - intros ->. revert s. induction ps as [|[old new] ps IH]; intros s.
    + constructor.
    + simpl in Hne. apply andb_prop in Hne as [Ho Hne].
      apply (in_order_step old new ps s (replace s old new)).
      * by apply replace_substitutes, nonempty_spec.
      * by apply IH.
Qed.

(** C1: between the read and the write, each script turns the text [S]
    into [S] with the script's pairs substituted in the order of the
    calls, each one over the whole buffer that the one before left, and
    into nothing else; a call [content.replace(old, new)] is that
    whole-buffer literal substitution of [old] by [new]; and the runs are
    the runs of the scripts that read, apply the pairs and write. *)
Theorem scripts_apply_pairs_in_order
    (decode_text : list Byte.byte -> option str)
    (encode_text : str -> option (list Byte.byte))
    (S : str) (w : world) :
  (∀ out, substituted_in_order fix_quiz_width_final_pairs S out ↔
          out = fix_quiz_width_final_buffer S) ∧
  (∀ out, substituted_in_order reduce_quiz_sizes_pairs1 S out ↔
          out = reduce_quiz_sizes_buffer1 S) ∧
  (∀ out, substituted_in_order reduce_quiz_sizes_pairs2 S out ↔
          out = reduce_quiz_sizes_buffer2 S) ∧
  (∀ out, substituted_in_order reduce_quiz_sizes_pairs S out ↔
          out = reduce_quiz_sizes_buffer2 (reduce_quiz_sizes_buffer1 S)) ∧
  (∀ old new r, nonempty old = true ->
     (literal_substitution old new S r ↔ r = replace S old new)) ∧
  fix_quiz_width_final_buffer S = apply_pairs fix_quiz_width_final_pairs S ∧
  reduce_quiz_sizes_buffer1 S = apply_pairs reduce_quiz_sizes_pairs1 S ∧
  reduce_quiz_sizes_buffer2 S = apply_pairs reduce_quiz_sizes_pairs2 S ∧
  reduce_quiz_sizes_buffer2 (reduce_quiz_sizes_buffer1 S) =
    apply_pairs reduce_quiz_sizes_pairs S ∧
  (∀ p ps, apply_pairs (p :: ps) S = apply_pairs ps (replace S p.1 p.2)) ∧
  fix_quiz_width_final decode_text encode_text w =
    (do content <- read_text decode_text target ;;
     do _ <- write_text encode_text target
               (apply_pairs fix_quiz_width_final_pairs content) ;;
     print (lit "File updated successfully!")) w ∧
  reduce_quiz_sizes decode_text encode_text w =
    (do content <- read_text decode_text target ;;
     do _ <- write_text encode_text target
               (apply_pairs reduce_quiz_sizes_pairs1 content) ;;
     do content <- read_text decode_text target ;;
     do _ <- write_text encode_text target
               (apply_pairs reduce_quiz_sizes_pairs2 content) ;;
     print (lit "Reduced all sizes!")) w.
Proof.
  split; [intros out; by apply in_order_apply_pairs|].
  split; [intros out; by apply in_order_apply_pairs|].
  split; [intros out; by apply in_order_apply_pairs|].
  split; [intros out; by apply in_order_apply_pairs|].
  split.
  { intros old new r Hne. split; [apply substitution_is_replace|].
    intros ->. by apply replace_substitutes, nonempty_spec. }
  repeat split; reflexivity.
Qed.

Lemma scripts_apply_pairs_in_order_witness :
  literal_substitution (lit "h-4 w-4") (lit "h-3 w-3")
    (lit "w-4 h-4 w-4 h-4 w-4") (lit "w-4 h-3 w-3 h-3 w-3").
Proof.
  destruct (scripts_apply_pairs_in_order ascii_decode ascii_encode
              (lit "w-4 h-4 w-4 h-4 w-4") (World ∅ [] [] [] ∅))
    as (_ & _ & _ & _ & Hsub & _).
  apply (Hsub (lit "h-4 w-4") (lit "h-3 w-3")); vm_compute; reflexivity.
Defined.

(** * The scripts read and overwrite the target, and nothing else *)

Section Frame.

Variable decode_text : list Byte.byte -> option str.
Variable encode_text : str -> option (list Byte.byte).

Lemma ignores_bind {A B} (m : M A) (k : A -> M B) :
  ignores_environment m -> (∀ a, ignores_environment (k a)) ->
  ignores_environment (bind m k).
Proof.
  intros Hm Hk w args env. unfold bind. rewrite Hm.
  destruct (m w) as [[a|e] w1]; cbn [fst snd]; [|done].
  rewrite Hk. by destruct (k a w1).
Qed.

Lemma ignores_read (p : string) :
  ignores_environment (read_text decode_text p).
Proof.
  intros w args env. unfold read_text, with_env, log_open. cbn [fs].
  destruct (fs w !! p) as [f|]; [|done].
  destruct (readable f); [|done]. by destruct (decode_text (data f)).
Qed.

Lemma ignores_write (p : string) (content : str) :
  ignores_environment (write_text encode_text p content).
Proof.
  intros w args env. unfold write_text, with_env, set_file, log_open.
  cbn [fs]. destruct (writable _); [|done].
  by destruct (encode_text content).
Qed.

Lemma ignores_print (s : str) : ignores_environment (print s).
Proof. by intros w args env. Qed.

(** A script that starts with the read of [target] and goes on with
    confined steps opens [target] for reading first. *)
Lemma opens_first_read {B} (k : str -> M B) :
  (∀ a, confined (k a)) ->
  opens_target_first (bind (read_text decode_text target) k).
Proof.
  intros Hk w. unfold bind.
  pose proof (read_text_world decode_text target w) as Hw.
  destruct (read_text decode_text target w) as [[S|e] w1]; simpl in Hw;
    subst w1.
  - destruct (Hk S (log_open target ModeR w)) as (_ & evs & Hev & _).
    exists evs. rewrite Hev. simpl. by rewrite <- app_assoc.
  - by exists [].
Qed.

(** A read-transform-write step that gets to the rest of the script has
    found the target readable, writable and decodable, and has put the
    encoding of the transformed text in its place. *)
Lemma rewrite_step_inv (g : str -> str) (k : M unit) (w w' : world) :
  (do content <- read_text decode_text target ;;
   do _ <- write_text encode_text target (g content) ;;
   k) w = (Ok tt, w') ->
  ∃ f S b, fs w !! target = Some f ∧ readable f = true ∧
           writable f = true ∧ decode_text (data f) = Some S ∧
           encode_text (g S) = Some b ∧
           k (World (<[target := File b true true]> (fs w)) (stdout w)
                    (opened w ++ [(target, ModeR); (target, ModeW)])
                    (argv w) (environ w)) = (Ok tt, w').
Proof.
  intros Hrun.
  destruct (fs w !! target) as [f|] eqn:Hf;
    [|by unfold bind, read_text in Hrun; rewrite Hf in Hrun].
  destruct (readable f) eqn:Hrd;
    [|by unfold bind, read_text in Hrun; rewrite Hf, Hrd in Hrun].
  destruct (decode_text (data f)) as [S|] eqn:Hd;
    [|by unfold bind, read_text in Hrun; rewrite Hf, Hrd, Hd in Hrun].
  rewrite (rewrite_step decode_text encode_text g k w f S Hf Hrd Hd) in Hrun.
  destruct (writable f) eqn:Hwr; [|done].
  destruct (encode_text (g S)) as [b|] eqn:Hb; [|done].
  by exists f, S, b.
Qed.

Lemma fix_overwrites_target :
  overwrites_target decode_text
    (fun S => encode_text (fix_quiz_width_final_buffer S))
    (fix_quiz_width_final decode_text encode_text).
Proof.
  split.
  - intros w Hok.
    destruct (fix_quiz_width_final decode_text encode_text w) as [r w'] eqn:E.
    simpl in Hok. subst r. unfold fix_quiz_width_final in E.
    apply rewrite_step_inv in E as (f & S & b & Hf & Hrd & Hwr & Hd & Hb & Hk).
    exists f, S, b. repeat (split; [done|]).
    unfold print in Hk. by injection Hk as <-.
  - intros w f S b Hf Hrd Hwr Hd Hb. unfold fix_quiz_width_final.
    by rewrite (rewrite_step _ _ _ _ w f S Hf Hrd Hd), Hwr, Hb.
Qed.

Lemma reduce_overwrites_target :
  overwrites_target decode_text (reduce_written decode_text encode_text)
    (reduce_quiz_sizes decode_text encode_text).
Proof.
  split.
  - intros w Hok.
    destruct (reduce_quiz_sizes decode_text encode_text w) as [r w'] eqn:E.
    simpl in Hok. subst r. unfold reduce_quiz_sizes in E.
    apply rewrite_step_inv in E as (f & S & b1 & Hf & Hrd & Hwr & Hd & Hb1 & Hk).
    unfold reduce_quiz_sizes_padding in Hk.
    apply rewrite_step_inv in Hk
      as (f1 & S2 & b2 & Hf1 & _ & _ & Hd1 & Hb2 & Hk).
    cbn [fs] in Hf1. rewrite lookup_insert_eq in Hf1. injection Hf1 as <-.
    cbn [data] in Hd1.
    exists f, S, b2. repeat (split; [done|]). split.
    + unfold reduce_written. rewrite Hb1. simpl. rewrite Hd1. simpl. done.
    + unfold print in Hk. injection Hk as <-. cbn [fs].
      by rewrite insert_insert_eq.
  - intros w f S b Hf Hrd Hwr Hd Hb. unfold reduce_written in Hb.
    destruct (encode_text (reduce_quiz_sizes_buffer1 S)) as [b1|] eqn:Hb1;
      [|done]. simpl in Hb.
    destruct (decode_text b1) as [S2|] eqn:Hd1; [|done]. simpl in Hb.
    unfold reduce_quiz_sizes.
    rewrite (rewrite_step _ _ _ _ w f S Hf Hrd Hd), Hwr, Hb1.
    unfold reduce_quiz_sizes_padding.
    rewrite (rewrite_step _ _ _ _ _ (File b1 true true) S2);
      [|apply lookup_insert_eq|done|done].
    cbn [writable]. by rewrite Hb.
Qed.

End Frame.

(** C6: each script reads from and overwrites the one path
    [components/project-tabs/quiz-tab.tsx]: the first thing a run does is
    to open that path for reading; a run ends well exactly on a file that
    is there, readable, writable and decodable (and whose new text
    encodes), and then the bytes at that path are the encoding of the
    transformed text; every [open] names that path and every other file is
    left as it was; and the run neither reads nor changes the command line
    and the environment variables: started with others it does the same. *)
Theorem scripts_touch_only_target
    (decode_text : list Byte.byte -> option str)
    (encode_text : str -> option (list Byte.byte)) :
  target = "components/project-tabs/quiz-tab.tsx"%string ∧
  confined (fix_quiz_width_final decode_text encode_text) ∧
  confined (reduce_quiz_sizes decode_text encode_text) ∧
  opens_target_first (fix_quiz_width_final decode_text encode_text) ∧
  opens_target_first (reduce_quiz_sizes decode_text encode_text) ∧
  overwrites_target decode_text
    (fun S => encode_text (fix_quiz_width_final_buffer S))
    (fix_quiz_width_final decode_text encode_text) ∧
  overwrites_target decode_text (reduce_written decode_text encode_text)
    (reduce_quiz_sizes decode_text encode_text) ∧
  ignores_environment (fix_quiz_width_final decode_text encode_text) ∧
  ignores_environment (reduce_quiz_sizes decode_text encode_text).
Proof.
  assert (Hpad : confined (reduce_quiz_sizes_padding decode_text encode_text)).
  { apply confined_bind; [apply confined_read|]. intros content.
    apply confined_bind; [apply confined_write|]. intros _.
    apply confined_print. }
  assert (Hfix : ∀ content,
            confined (do _ <- write_text encode_text target
                                (fix_quiz_width_final_buffer content) ;;
                      print (lit "File updated successfully!"))).
  { intros content. apply confined_bind; [apply confined_write|].
    intros _. apply confined_print. }
  assert (Hred : ∀ content,
            confined (do _ <- write_text encode_text target
                                (reduce_quiz_sizes_buffer1 content) ;;
                      reduce_quiz_sizes_padding decode_text encode_text)).
  { intros content. by apply confined_bind; [apply confined_write|]. }
  split; [reflexivity|].
  split; [by apply confined_bind; [apply confined_read|]|].
  split; [by apply confined_bind; [apply confined_read|]|].
  split; [by apply opens_first_read|].
  split; [by apply opens_first_read|].
  split; [apply fix_overwrites_target|].
  split; [apply reduce_overwrites_target|].
  split.
  - apply ignores_bind; [apply ignores_read|]. intros content.
    apply ignores_bind; [apply ignores_write|]. intros _. apply ignores_print.
  - apply ignores_bind; [apply ignores_read|]. intros content.
    apply ignores_bind; [apply ignores_write|]. intros _.
    apply ignores_bind; [apply ignores_read|]. intros content2.
    apply ignores_bind; [apply ignores_write|]. intros _. apply ignores_print.
Qed.

Lemma scripts_touch_only_target_witness :
  (fix_quiz_width_final ascii_decode ascii_encode
     (with_env ["--dry-run"%string] {[ "CI"%string := "1"%string ]}
        (world_with (lit "      <div className=" ++
                     q "space-y-4 w-full max-w-full overflow-x-hidden" ++
                     lit ">")))).1 = Ok tt.
Proof.
  destruct (scripts_touch_only_target ascii_decode ascii_encode)
    as (_ & _ & _ & _ & _ & [_ Hruns] & _ & Hignores & _).
  rewrite Hignores. cbn [fst].
  apply (Hruns _
           (File (default [] (ascii_encode
                    (lit "      <div className=" ++
                     q "space-y-4 w-full max-w-full overflow-x-hidden" ++
                     lit ">"))) true true)
           (lit "      <div className=" ++
            q "space-y-4 w-full max-w-full overflow-x-hidden" ++ lit ">")
           (default [] (ascii_encode
              (fix_quiz_width_final_buffer
                 (lit "      <div className=" ++
                  q "space-y-4 w-full max-w-full overflow-x-hidden" ++
                  lit ">")))));
    vm_compute; reflexivity.
Defined.
